(** * SharedStateManager: a shallow embedding of [managers/shared-state-manager.go]

    The Go package keeps three maps behind one [sync.RWMutex]: the values,
    the per-key [*time.Timer]s and the per-key subscriber slices.  Every
    exported method, and the timer callback [expireKey], takes the lock for
    its whole body, so each is modelled as one atomic transition of a
    [World]: the manager itself plus the parts of the Go runtime the methods
    talk to (the timers allocated by [time.AfterFunc], a logical clock, and
    the sequence of channel sends).

    What the model abstracts:
    - a channel send [sub.Channel <- v] appends [(channel, v)] to the log
      of sends; receivers are assumed to drain their channels, so a send
      never blocks;
    - in [run], the firing of a timer and the callback it runs are one
      transition ([fire]); [rrun] further down separates the expiry from
      the callback, which waits for the mutex like any caller;
    - durations and instants are integers without the [int64] bound;
    - the dynamic types are the closed set [GoType]; floating-point values
      are not among them. *)

From stdpp Require Import base gmap list strings.
From Stdlib Require Import ZArith Lia.

Local Open Scope Z_scope.

(** ** Dynamic values ([interface{}]) *)

(** The dynamic types a stored value can have in this development.  Slices
    and functions stand for the types Go does not allow to be compared. *)
Inductive GoType : Type :=
  | TString
  | TInt
  | TBool
  | TExpirationNotification
  | TSliceInt
  | TFunc.

(** [ExpirationNotification{Key}] is a value like any other once it is boxed
    in an [interface{}], so it is one of the constructors. *)
Inductive Value : Type :=
  | VNil
  | VString (s : string)
  | VInt (n : Z)
  | VBool (b : bool)
  | ExpirationNotification (Key : string)
  | VSliceInt (elems : list Z)
  | VFunc (code : nat).

Global Instance GoType_eq_dec : EqDecision GoType.
Proof. solve_decision. Defined.

Global Instance Value_eq_dec : EqDecision Value.
Proof. solve_decision. Defined.

(** The dynamic type of an interface value; the nil interface has none. *)
Definition dynType (v : Value) : option GoType :=
  match v with
  | VNil => None
  | VString _ => Some TString
  | VInt _ => Some TInt
  | VBool _ => Some TBool
  | ExpirationNotification _ => Some TExpirationNotification
  | VSliceInt _ => Some TSliceInt
  | VFunc _ => Some TFunc
  end.

Definition comparable (t : GoType) : bool :=
  match t with
  | TSliceInt | TFunc => false
  | _ => true
  end.

(** Go's [x == y] on two interface values: different dynamic types are
    unequal; identical dynamic types are compared by value, and the
    comparison faults at run time ([None]) when that type is not
    comparable. *)
Definition iface_eq (x y : Value) : option bool :=
  if decide (dynType x = dynType y) then
    match dynType x with
    | None => Some true
    | Some t => if comparable t then Some (bool_decide (x = y)) else None
    end
  else Some false.

Definition iface_ne (x y : Value) : option bool := negb <$> iface_eq x y.

(** ** The manager and the runtime around it *)

Record Subscription : Type := {
  Channel : nat;
  ConditionalNotifications : bool;
}.

Record SharedStateManager : Type := {
  stateMap : gmap string Value;
  timers : gmap string nat;
  subscribers : gmap string (list Subscription);
}.

Inductive TimerStatus : Type := Armed | Stopped | Fired.

Global Instance TimerStatus_eq_dec : EqDecision TimerStatus.
Proof. solve_decision. Defined.

(** A timer made by [time.AfterFunc(duration, func() { ssm.expireKey(key) })]:
    the key captured by the closure, the instant it is due, and whether it
    is still pending. *)
Record Timer : Type := {
  t_key : string;
  t_deadline : Z;
  t_status : TimerStatus;
}.

(** A [*time.Timer] is the index of the timer in [heap]. *)
Record World : Type := {
  ssm : SharedStateManager;
  heap : list Timer;
  now : Z;
  sent : list (nat * Value);
}.

Definition NewSharedStateManager : SharedStateManager :=
  {| stateMap := ∅; timers := ∅; subscribers := ∅ |}.

Definition boot : World :=
  {| ssm := NewSharedStateManager; heap := []; now := 0; sent := [] |}.

(** ** A state monad with run-time faults *)

Inductive Result (A : Type) : Type :=
  | Ok (a : A) (w : World)
  | Panic (w : World).
Arguments Ok {A} a w.
Arguments Panic {A} w.

Definition M (A : Type) : Type := World → Result A.

Global Instance M_ret : MRet M := λ A a w, Ok a w.
Global Instance M_bind : MBind M := λ A B f m w,
  match m w with
  | Ok a w' => f a w'
  | Panic w' => Panic w'
  end.

Definition getSSM : M SharedStateManager := λ w, Ok (ssm w) w.

Definition putSSM (s : SharedStateManager) : M unit := λ w,
  Ok () {| ssm := s; heap := heap w; now := now w; sent := sent w |}.

Definition panic {A} : M A := λ w, Panic w.

(** [ch <- v] *)
Definition chanSend (ch : nat) (v : Value) : M unit := λ w,
  Ok () {| ssm := ssm w; heap := heap w; now := now w;
           sent := sent w ++ [(ch, v)] |}.

(** [x != y] on interface values *)
Definition ifaceNe (x y : Value) : M bool :=
  match iface_ne x y with
  | Some b => mret b
  | None => panic
  end.

(** [for _, x := range xs { body }] *)
Fixpoint forRange {A} (xs : list A) (body : A → M unit) : M unit :=
  match xs with
  | [] => mret ()
  | x :: rest => body x ;; forRange rest body
  end.

(** [v, ok := m[key]] on a Go map: the zero value and [false] when absent. *)
Definition mapIndex (m : gmap string Value) (key : string) : Value * bool :=
  match m !! key with
  | Some v => (v, true)
  | None => (VNil, false)
  end.

(** [m[key]] on the subscriber map: the nil slice when absent. *)
Definition subscribersOf (s : SharedStateManager) (key : string)
  : list Subscription :=
  default [] (subscribers s !! key).

Definition stopped (t : Timer) : Timer :=
  {| t_key := t_key t; t_deadline := t_deadline t;
     t_status := match t_status t with Armed => Stopped | st => st end |}.

(** [timer.Stop()]: a pending timer is cancelled and the call reports
    [true]; a timer that fired or was stopped is left alone. *)
Definition timerStop (timer : nat) : M bool := λ w,
  match heap w !! timer with
  | Some t =>
      Ok (bool_decide (t_status t = Armed))
         {| ssm := ssm w; heap := <[timer := stopped t]> (heap w);
            now := now w; sent := sent w |}
  | None => Ok false w
  end.

(** [time.AfterFunc(duration, func() { ssm.expireKey(key) })] *)
Definition AfterFunc (duration : Z) (key : string) : M nat := λ w,
  Ok (length (heap w))
     {| ssm := ssm w;
        heap := heap w ++ [{| t_key := key; t_deadline := now w + duration;
                              t_status := Armed |}];
        now := now w; sent := sent w |}.

(** ** The methods *)

Definition notifySubscribers (key : string) (value : Value) (exists_ : bool)
    (oldValue : Value) : M unit :=
  s ← getSSM;
  forRange (subscribersOf s key) (λ sub,
    c ← (if negb (ConditionalNotifications sub) then mret true
         else if negb exists_ then mret true
         else ifaceNe oldValue value);
    if c : bool then chanSend (Channel sub) value else mret ()).

Definition Set_ (key : string) (value : Value) : M unit :=
  s ← getSSM;
  let '(oldValue, exists_) := mapIndex (stateMap s) key in
  putSSM {| stateMap := <[key := value]> (stateMap s);
            timers := timers s; subscribers := subscribers s |} ;;
  notifySubscribers key value exists_ oldValue.

Definition SetWithTimeout (key : string) (value : Value) (duration : Z)
  : M unit :=
  s ← getSSM;
  putSSM {| stateMap := <[key := value]> (stateMap s);
            timers := timers s; subscribers := subscribers s |} ;;
  notifySubscribers key value false VNil ;;
  s ← getSSM;
  match timers s !! key with
  | Some timer => timerStop timer ;; mret ()
  | None => mret ()
  end ;;
  timer ← AfterFunc duration key;
  s ← getSSM;
  putSSM {| stateMap := stateMap s; timers := <[key := timer]> (timers s);
            subscribers := subscribers s |}.

Definition expireKey (key : string) : M unit :=
  s ← getSSM;
  putSSM {| stateMap := delete key (stateMap s);
            timers := timers s; subscribers := subscribers s |} ;;
  s ← getSSM;
  match timers s !! key with
  | Some timer =>
      timerStop timer ;;
      putSSM {| stateMap := stateMap s; timers := delete key (timers s);
                subscribers := subscribers s |}
  | None => mret ()
  end ;;
  let expirationNotification := ExpirationNotification key in
  s ← getSSM;
  forRange (subscribersOf s key) (λ sub,
    chanSend (Channel sub) expirationNotification).

Definition Get (key : string) : M (Value * bool) :=
  s ← getSSM;
  let '(value, exists_) := mapIndex (stateMap s) key in
  mret (value, exists_).

Definition GetString (key : string) : M (string * bool) :=
  s ← getSSM;
  let '(value, exists_) := mapIndex (stateMap s) key in
  if negb exists_ then mret (""%string, false)
  else
    (* strValue, ok := value.(string) *)
    match value with
    | VString strValue => mret (strValue, true)
    | _ => mret (""%string, false)
    end.

Definition GetStruct (key : string) : M (Value * bool) :=
  s ← getSSM;
  let '(value, exists_) := mapIndex (stateMap s) key in
  if negb exists_ then mret (VNil, false)
  else mret (value, true).

Definition Delete (key : string) : M unit :=
  s ← getSSM;
  putSSM {| stateMap := delete key (stateMap s);
            timers := timers s; subscribers := subscribers s |} ;;
  s ← getSSM;
  match timers s !! key with
  | Some timer =>
      timerStop timer ;;
      putSSM {| stateMap := stateMap s; timers := delete key (timers s);
                subscribers := subscribers s |}
  | None => mret ()
  end ;;
  let expirationNotification := ExpirationNotification key in
  s ← getSSM;
  forRange (subscribersOf s key) (λ sub,
    chanSend (Channel sub) expirationNotification).

Definition Subscribe (key : string) (ch : nat) (conditional : bool) : M unit :=
  s ← getSSM;
  putSSM {| stateMap := stateMap s; timers := timers s;
            subscribers :=
              <[key := subscribersOf s key ++
                       [{| Channel := ch;
                           ConditionalNotifications := conditional |}]]>
                (subscribers s) |}.

(** ** Transitions of the whole system *)

Inductive Call : Type :=
  | CSet (key : string) (value : Value)
  | CSetWithTimeout (key : string) (value : Value) (duration : Z)
  | CDelete (key : string)
  | CSubscribe (key : string) (ch : nat) (conditional : bool).

(** What can happen to a world: a caller invokes a method, time passes, or
    the runtime fires a pending timer whose deadline has come. *)
Inductive Event : Type :=
  | Api (c : Call)
  | Tick (d : Z)
  | Fire (timer : nat).

Global Instance Call_eq_dec : EqDecision Call.
Proof. solve_decision. Defined.

Global Instance Event_eq_dec : EqDecision Event.
Proof. solve_decision. Defined.

Definition call (c : Call) : M unit :=
  match c with
  | CSet key value => Set_ key value
  | CSetWithTimeout key value duration => SetWithTimeout key value duration
  | CDelete key => Delete key
  | CSubscribe key ch conditional => Subscribe key ch conditional
  end.

Definition callKey (c : Call) : string :=
  match c with
  | CSet key _ | CSetWithTimeout key _ _ | CDelete key
  | CSubscribe key _ _ => key
  end.

Definition fired (t : Timer) : Timer :=
  {| t_key := t_key t; t_deadline := t_deadline t; t_status := Fired |}.

Definition due (t : Timer) (w : World) : bool :=
  bool_decide (t_status t = Armed) && bool_decide (t_deadline t ≤ now w).

(** The runtime runs the callback of a pending timer that is due; the
    timer is no longer pending when the callback starts. *)
Definition fire (timer : nat) (w : World) : option (Result unit) :=
  match heap w !! timer with
  | Some t =>
      if due t w then
        Some (expireKey (t_key t)
                {| ssm := ssm w; heap := <[timer := fired t]> (heap w);
                   now := now w; sent := sent w |})
      else None
  | None => None
  end.

Definition tick (d : Z) (w : World) : option World :=
  if bool_decide (0 ≤ d) then
    Some {| ssm := ssm w; heap := heap w; now := now w + d; sent := sent w |}
  else None.

(** [exec e w] is the world after [e], or [None] when [e] cannot happen in
    [w] or the call faults (an unrecovered fault ends the program). *)
Definition exec (e : Event) (w : World) : option World :=
  match e with
  | Api c => match call c w with Ok _ w' => Some w' | Panic _ => None end
  | Tick d => tick d w
  | Fire timer =>
      match fire timer w with Some (Ok _ w') => Some w' | _ => None end
  end.

Fixpoint run (evs : list Event) (w : World) : option World :=
  match evs with
  | [] => Some w
  | e :: rest =>
      match exec e w with
      | Some w' => run rest w'
      | None => None
      end
  end.

Definition callValue (c : Call) : option Value :=
  match c with
  | CSet _ value | CSetWithTimeout _ value _ => Some value
  | CDelete _ | CSubscribe _ _ _ => None
  end.

(** [interferes k e]: [e] is a method call on key [k], or a call that stores
    under some other key a value that is itself [ExpirationNotification{k}]
    (a subscriber of both keys on one channel could not tell that message
    from an expiration of [k]).  Ticks and timers never interfere. *)
Definition interferes (k : string) (e : Event) : bool :=
  match e with
  | Api c =>
      bool_decide (callKey c = k)
      || bool_decide (callValue c = Some (ExpirationNotification k))
  | _ => false
  end.

(** The value a completed call returned, and the world it left. *)
Definition result {A} (r : Result A) : option A :=
  match r with Ok a _ => Some a | Panic _ => None end.

Definition after {A} (r : Result A) : World :=
  match r with Ok _ w => w | Panic w => w end.

Definition faults {A} (r : Result A) : bool :=
  match r with Ok _ _ => false | Panic _ => true end.

(** The sends of [tr] that are expiration notifications for [k]. *)
Definition expirations (k : string) (tr : list (nat * Value))
  : list (nat * Value) :=
  List.filter (λ p, bool_decide (p.2 = ExpirationNotification k)) tr.

(** The sends that deliver [v] to each subscription of [subs], in order. *)
Definition deliveries (v : Value) (subs : list Subscription)
  : list (nat * Value) :=
  map (λ sub, (Channel sub, v)) subs.

(** The rule of [notifySubscribers] for one subscription, given whether the
    key existed and whether the old value differs from the new one. *)
Definition receives (exists_ differs : bool) (sub : Subscription) : bool :=
  negb (ConditionalNotifications sub) || negb exists_ || differs.

(** How many messages equal to [v] were sent on channel [ch]. *)
Definition received (ch : nat) (v : Value) (tr : list (nat * Value)) : nat :=
  length (List.filter (λ p, bool_decide (p = (ch, v))) tr).

(** ** Vocabulary of the statements and proofs *)

(** [timer.Stop()] on the timer a map lookup found, if any. *)
Definition cancel (o : option nat) (h : list Timer) : list Timer :=
  match o with
  | Some timer =>
      match h !! timer with
      | Some t => <[timer := stopped t]> h
      | None => h
      end
  | None => h
  end.

Definition addSent (w : World) (tr : list (nat * Value)) : World :=
  {| ssm := ssm w; heap := heap w; now := now w; sent := sent w ++ tr |}.

(** The body of the loop of [notifySubscribers]. *)
Definition notifyBody (value : Value) (exists_ : bool) (oldValue : Value)
    (sub : Subscription) : M unit :=
  c ← (if negb (ConditionalNotifications sub) then mret true
       else if negb exists_ then mret true
       else ifaceNe oldValue value);
  if c : bool then chanSend (Channel sub) value else mret ().

(** [w'] differs from [w] at most in the log of sends. *)
Definition sameStore (w w' : World) : Prop :=
  ssm w' = ssm w ∧ heap w' = heap w ∧ now w' = now w.

(** The three facts every world built by the methods satisfies: a pending
    timer is the one registered under its key; a registered timer exists
    and was made for that key; only keys that hold a value have a timer. *)
Record wf (w : World) : Prop := {
  wf_armed : ∀ (id : nat) (t : Timer),
    heap w !! id = Some t → t_status t = Armed →
    timers (ssm w) !! t_key t = Some id;
  wf_timer : ∀ (k : string) (id : nat),
    timers (ssm w) !! k = Some id →
    ∃ t, heap w !! id = Some t ∧ t_key t = k;
  wf_value : ∀ (k : string) (id : nat),
    timers (ssm w) !! k = Some id → is_Some (stateMap (ssm w) !! k);
}.

(** [h'] is a later state of the timers of [h]: every timer of [h] is still
    there with its key and deadline, and is pending only if it was pending
    and untouched. *)
Definition heap_le (h h' : list Timer) : Prop :=
  ∀ (id : nat) (t : Timer), h !! id = Some t →
    ∃ t', h' !! id = Some t' ∧ t_key t' = t_key t
          ∧ t_deadline t' = t_deadline t ∧ (t_status t' = Armed → t' = t).

(** [w'] is [w] as far as [key] is concerned: same registered timer, same
    subscribers, same value, the timers made for [key] untouched and no new
    one, and no expiration notification for [key] sent in between. *)
Record unaffected (key : string) (w w' : World) : Prop := {
  un_timers : timers (ssm w') !! key = timers (ssm w) !! key;
  un_subs : subscribersOf (ssm w') key = subscribersOf (ssm w) key;
  un_value : stateMap (ssm w') !! key = stateMap (ssm w) !! key;
  un_heap : ∀ (id : nat) (t : Timer),
    heap w !! id = Some t → t_key t = key → heap w' !! id = Some t;
  un_new : ∀ (id : nat) (t' : Timer),
    heap w !! id = None → heap w' !! id = Some t' → t_key t' ≠ key;
  un_le : heap_le (heap w) (heap w');
  un_now : now w ≤ now w';
  un_sent : ∃ tr, sent w' = sent w ++ tr ∧ expirations key tr = [];
}.

(** [key] has a pending timer [timer], due at [deadline], registered in the
    timer map, and [subs] are its subscribers. *)
Record pending (key : string) (timer : nat) (deadline : Z)
    (subs : list Subscription) (w : World) : Prop := {
  pend_wf : wf w;
  pend_reg : timers (ssm w) !! key = Some timer;
  pend_timer : heap w !! timer
               = Some {| t_key := key; t_deadline := deadline;
                         t_status := Armed |};
  pend_subs : subscribersOf (ssm w) key = subs;
}.

(** No timer made for [key] is pending. *)
Definition idle (key : string) (w : World) : Prop :=
  ∀ (id : nat) (t : Timer),
    heap w !! id = Some t → t_key t = key → t_status t ≠ Armed.

(** [writes k e]: [e] is a [Set] or a [SetWithTimeout] on key [k], the two
    calls that store a value. *)
Definition writes (k : string) (e : Event) : bool :=
  match e with
  | Api (CSet key _) | Api (CSetWithTimeout key _ _) => bool_decide (key = k)
  | _ => false
  end.

(** How many subscriptions of [subs] deliver to channel [ch]. *)
Definition subscriptionsOn (ch : nat) (subs : list Subscription) : nat :=
  length (List.filter (λ sub, bool_decide (Channel sub = ch)) subs).

(** [modifies k e]: [e] is a [Set], a [SetWithTimeout] or a [Delete] on
    key [k]. *)
Definition modifies (k : string) (e : Event) : bool :=
  match e with
  | Api (CSet key _) | Api (CSetWithTimeout key _ _) | Api (CDelete key) =>
      bool_decide (key = k)
  | _ => false
  end.

(** ** Timers that have gone off but whose callback has not run yet

    In Go the runtime starts the callback of an expired [AfterFunc] timer in
    a goroutine of its own, and [expireKey] then waits for the mutex like
    any caller; [Stop] on such a timer reports [false] and does not call the
    callback back.  [queue] holds the timers in that state.  [fire] above is
    the special case in which the callback gets the mutex at once. *)

Record RWorld : Type := {
  base : World;
  queue : gset nat;
}.

Inductive REvent : Type :=
  | RApi (c : Call)
  | RTick (d : Z)
  | RExpire (timer : nat)
  | RCallback (timer : nat).

Global Instance REvent_eq_dec : EqDecision REvent.
Proof. solve_decision. Defined.

(** The runtime's part: a pending timer that is due stops being pending and
    its callback starts waiting for the mutex. *)
Definition expire (timer : nat) (rw : RWorld) : option RWorld :=
  match heap (base rw) !! timer with
  | Some t =>
      if due t (base rw) then
        Some {| base := {| ssm := ssm (base rw);
                           heap := <[timer := fired t]> (heap (base rw));
                           now := now (base rw); sent := sent (base rw) |};
                queue := {[timer]} ∪ queue rw |}
      else None
  | None => None
  end.

(** The callback of an expired timer gets the mutex and runs [expireKey]
    with the key its closure captured. *)
Definition callback (timer : nat) (rw : RWorld) : option RWorld :=
  if decide (timer ∈ queue rw) then
    match heap (base rw) !! timer with
    | Some t =>
        match expireKey (t_key t) (base rw) with
        | Ok _ w' => Some {| base := w'; queue := queue rw ∖ {[timer]} |}
        | Panic _ => None
        end
    | None => None
    end
  else None.

(** A piece of code that runs with the mutex held. *)
Definition locked (m : M unit) (rw : RWorld) : option RWorld :=
  match m (base rw) with
  | Ok _ w' => Some {| base := w'; queue := queue rw |}
  | Panic _ => None
  end.

Definition rexec (e : REvent) (rw : RWorld) : option RWorld :=
  match e with
  | RApi c => locked (call c) rw
  | RTick d =>
      match tick d (base rw) with
      | Some w' => Some {| base := w'; queue := queue rw |}
      | None => None
      end
  | RExpire timer => expire timer rw
  | RCallback timer => callback timer rw
  end.

Fixpoint rrun (evs : list REvent) (rw : RWorld) : option RWorld :=
  match evs with
  | [] => Some rw
  | e :: rest =>
      match rexec e rw with
      | Some rw' => rrun rest rw'
      | None => None
      end
  end.

Definition rboot : RWorld := {| base := boot; queue := ∅ |}.

Definition rinterferes (k : string) (e : REvent) : bool :=
  match e with
  | RApi c => interferes k (Api c)
  | _ => false
  end.

Definition rmodifies (k : string) (e : REvent) : bool :=
  match e with
  | RApi c => modifies k (Api c)
  | _ => false
  end.

(** No callback for [key] is waiting for the mutex. *)
Definition quiet (key : string) (rw : RWorld) : Prop :=
  ∀ id : nat, id ∈ queue rw →
    ∃ t, heap (base rw) !! id = Some t ∧ t_key t ≠ key.

(** A registered timer is either pending or expired with its callback
    waiting. *)
Definition tracked (q : gset nat) (id : nat) (t : Timer) : Prop :=
  t_status t = Armed ∨ (t_status t = Fired ∧ id ∈ q).

Definition tracked_except (key : string) (rw : RWorld) : Prop :=
  ∀ (k : string) (id : nat), k ≠ key →
    timers (ssm (base rw)) !! k = Some id →
    ∃ t, heap (base rw) !! id = Some t ∧ t_key t = k
         ∧ tracked (queue rw) id t.

Definition all_tracked (rw : RWorld) : Prop :=
  ∀ (k : string) (id : nat),
    timers (ssm (base rw)) !! k = Some id →
    ∃ t, heap (base rw) !! id = Some t ∧ t_key t = k
         ∧ tracked (queue rw) id t.

(** The two halves of [SetWithTimeout]: up to and including the sends,
    during which time passes, and from [timer.Stop()] on. *)
Definition SetWithTimeout_store (key : string) (value : Value) : M unit :=
  s ← getSSM;
  putSSM {| stateMap := <[key := value]> (stateMap s);
            timers := timers s; subscribers := subscribers s |} ;;
  notifySubscribers key value false VNil.

Definition SetWithTimeout_arm (key : string) (duration : Z) : M unit :=
  s ← getSSM;
  match timers s !! key with
  | Some timer => timerStop timer ;; mret ()
  | None => mret ()
  end ;;
  timer ← AfterFunc duration key;
  s ← getSSM;
  putSSM {| stateMap := stateMap s; timers := <[key := timer]> (timers s);
            subscribers := subscribers s |}.

(** ** Concrete worlds *)

Definition cond0 : Subscription :=
  {| Channel := 0; ConditionalNotifications := true |}.

Definition plain1 : Subscription :=
  {| Channel := 1; ConditionalNotifications := false |}.

(** ["k"] has a conditional subscriber on channel 0 and, registered after
    it, an unconditional one on channel 1. *)
Definition twoSubscribers : World :=
  after (Subscribe "k" 1 false (after (Subscribe "k" 0 true boot))).

(** The same, with the slice [[]int{1}] stored under ["k"]. *)
Definition sliceStored : World :=
  after (Set_ "k" (VSliceInt [1]) twoSubscribers).

(** The slice stored under ["k"], with the conditional subscriber only. *)
Definition sliceStoredOne : World :=
  after (Set_ "k" (VSliceInt [1]) (after (Subscribe "k" 0 true boot))).

(** [SetWithTimeout("k", 7, 5)] at time 0 ... *)
Definition timedWorld : World :=
  after (SetWithTimeout "k" (VInt 7) 5 twoSubscribers).

(** ... then another key is written and 5 units of time pass; *)
Definition laterWorld : World :=
  default timedWorld (run [Api (CSet "j" (VInt 1)); Tick 5] timedWorld).

(** or else 2 units pass, ["k"] is set again for 5 more, and the second
    timer fires when those have passed. *)
Definition midWorld : World :=
  default timedWorld (run [Tick 2] timedWorld).

Definition rearmedWorld : World :=
  after (SetWithTimeout "k" (VInt 8) 5 midWorld).

Definition lastWorld : World :=
  default rearmedWorld (run [Tick 5; Fire 1] rearmedWorld).

(** The race on re-arming: ["k"] is set for 5 at time 0; at time 4 a second
    [SetWithTimeout("k", 8, 10)] takes the mutex and starts sending; the
    receivers take until time 6, by which time the first timer has gone
    off and its callback is waiting for the mutex; the call then goes on to
    [timer.Stop()], and once it returns the callback runs. *)
Definition raceStart : RWorld := {| base := twoSubscribers; queue := ∅ |}.

Definition raceSecondCallBegins : option RWorld :=
  rrun [RApi (CSetWithTimeout "k" (VInt 7) 5); RTick 4] raceStart.

Definition raceSecondCallReturns : option RWorld :=
  rw ← raceSecondCallBegins;
  rw ← locked (SetWithTimeout_store "k" (VInt 8)) rw;
  rw ← rrun [RTick 2; RExpire 0] rw;
  locked (SetWithTimeout_arm "k" 10) rw.

Definition raceEnd : option RWorld :=
  rw ← raceSecondCallReturns; rexec (RCallback 0) rw.

(** Worlds with an empty queue of callbacks, and runs from them. *)
Definition quietStart : RWorld := {| base := twoSubscribers; queue := ∅ |}.

Definition quietTimed : RWorld := {| base := timedWorld; queue := ∅ |}.

Definition otherKeyExpired : RWorld :=
  default rboot
    (rrun [RApi (CSetWithTimeout "j" (VInt 1) 1); RTick 2; RExpire 1;
           RCallback 1] quietTimed).

Definition overwritten : RWorld :=
  {| base := after (Set_ "k" (VInt 9) timedWorld); queue := ∅ |}.

Definition overwrittenDue : RWorld :=
  default rboot (rrun [RTick 5] overwritten).

Definition deletedLater : RWorld :=
  default rboot
    (rrun [RTick 9] {| base := after (Delete "k" timedWorld); queue := ∅ |}).

Definition quietLater : RWorld := {| base := laterWorld; queue := ∅ |}.

Definition afterOtherExpiry : RWorld :=
  default rboot
    (rrun [RExpire 0; RApi (CSubscribe "j" 2 true); RCallback 0; RTick 1]
          quietLater).

Definition expiredWaiting : RWorld :=
  default rboot
    (rrun [RApi (CSubscribe "k" 0 true);
           RApi (CSetWithTimeout "k" (VInt 7) 5); RTick 5; RExpire 0] rboot).

(** ** Proof steps used more than once *)

Ltac unfold_m :=
  unfold mbind, M_bind, mret, M_ret, getSSM, putSSM, panic.

Ltac un_trivial :=
  first [ done | lia | (intros; congruence) | (intros ? ? ?; by eauto)
        | (exists []; rewrite app_nil_r; split; reflexivity) | idtac ].

(** * Properties *)

(** ** Small scenarios, run on the model *)

Example same_string_twice :
  sent (after (Set_ "k" (VString "a")
                (after (Set_ "k" (VString "a") twoSubscribers))))
  = [(0%nat, VString "a"); (1%nat, VString "a"); (1%nat, VString "a")].
Proof. vm_compute. reflexivity. Qed.

Example timed_set_expires :
  (w1 ← run [Api (CSetWithTimeout "k" (VInt 7) 5); Tick 5; Fire 0]
            twoSubscribers;
   Some (result (Get "k" w1), sent w1))
  = Some (Some (VNil, false),
          [(0%nat, VInt 7); (1%nat, VInt 7);
           (0%nat, ExpirationNotification "k");
           (1%nat, ExpirationNotification "k")]).
Proof. vm_compute. reflexivity. Qed.

Example timer_not_due :
  run [Api (CSetWithTimeout "k" (VInt 7) 5); Tick 4; Fire 0] twoSubscribers
  = None.
Proof. vm_compute. reflexivity. Qed.

(** ** Closed forms of the methods *)

Lemma addSent_nil w : addSent w [] = w.
Proof. destruct w; unfold addSent; simpl. by rewrite app_nil_r. Qed.

Lemma addSent_app w tr1 tr2 :
  addSent (addSent w tr1) tr2 = addSent w (tr1 ++ tr2).
Proof. unfold addSent; simpl. by rewrite app_assoc. Qed.

Lemma run_bind {A B} (m : M A) (f : A → M B) w :
  (m ≫= f) w = match m w with Ok a w' => f a w' | Panic w' => Panic w' end.
Proof. reflexivity. Qed.

Lemma forRange_send subs v w :
  forRange subs (λ sub, chanSend (Channel sub) v) w
  = Ok () (addSent w (deliveries v subs)).
Proof.
  revert w. induction subs as [|sub subs IH]; intros w; simpl.
  - by rewrite addSent_nil.
  - rewrite run_bind. unfold chanSend at 1. rewrite IH.
    unfold addSent; simpl. by rewrite <- app_assoc.
Qed.

Lemma notifySubscribers_loop key value exists_ oldValue w :
  notifySubscribers key value exists_ oldValue w
  = forRange (subscribersOf (ssm w) key)
             (notifyBody value exists_ oldValue) w.
Proof. reflexivity. Qed.

Lemma notifyBody_ok value exists_ oldValue differs sub w :
  (exists_ = true → iface_ne oldValue value = Some differs) →
  notifyBody value exists_ oldValue sub w
  = Ok () (if receives exists_ differs sub
           then addSent w [(Channel sub, value)] else w).
Proof.
  intros Hcmp. unfold notifyBody, receives. rewrite run_bind.
  destruct (ConditionalNotifications sub); simpl; [|done].
  destruct exists_; simpl; [|done].
  unfold ifaceNe. rewrite Hcmp by done. by destruct differs.
Qed.

(** The loop of [notifySubscribers] when the comparison is never reached or
    does not fault. *)
Lemma notifyLoop_ok subs value exists_ oldValue differs w :
  (exists_ = true → iface_ne oldValue value = Some differs) →
  forRange subs (notifyBody value exists_ oldValue) w
  = Ok () (addSent w (deliveries value
                        (List.filter (receives exists_ differs) subs))).
Proof.
  intros Hcmp. revert w.
  induction subs as [|sub subs IH]; intros w; simpl.
  - by rewrite addSent_nil.
  - rewrite run_bind, (notifyBody_ok _ _ _ differs) by done.
    rewrite IH. destruct (receives exists_ differs sub); simpl; [|done].
    unfold addSent; simpl. by rewrite <- app_assoc.
Qed.

Lemma notifySubscribers_ok key value exists_ oldValue differs w :
  (exists_ = true → iface_ne oldValue value = Some differs) →
  notifySubscribers key value exists_ oldValue w
  = Ok () (addSent w (deliveries value
             (List.filter (receives exists_ differs)
                          (subscribersOf (ssm w) key)))).
Proof.
  intros Hcmp. rewrite notifySubscribers_loop. by apply notifyLoop_ok.
Qed.

Lemma filter_receives_fresh differs subs :
  List.filter (receives false differs) subs = subs.
Proof.
  induction subs as [|sub subs IH]; simpl; [done|].
  unfold receives at 1. rewrite orb_true_r. simpl. by rewrite IH.
Qed.

Lemma notifySubscribers_fresh key value oldValue w :
  notifySubscribers key value false oldValue w
  = Ok () (addSent w (deliveries value (subscribersOf (ssm w) key))).
Proof.
  rewrite (notifySubscribers_ok _ _ _ _ true) by done.
  by rewrite filter_receives_fresh.
Qed.

Lemma Set_ok key value differs w :
  (is_Some (stateMap (ssm w) !! key) →
   iface_ne (mapIndex (stateMap (ssm w)) key).1 value = Some differs) →
  Set_ key value w
  = Ok () {| ssm := {| stateMap := <[key := value]> (stateMap (ssm w));
                       timers := timers (ssm w);
                       subscribers := subscribers (ssm w) |};
             heap := heap w; now := now w;
             sent := sent w ++ deliveries value
                       (List.filter
                          (receives (mapIndex (stateMap (ssm w)) key).2
                                    differs)
                          (subscribersOf (ssm w) key)) |}.
Proof.
  intros Hcmp. unfold Set_. unfold_m. simpl.
  destruct (mapIndex (stateMap (ssm w)) key) as [oldValue exists_] eqn:Hidx.
  simpl in *.
  rewrite (notifySubscribers_ok _ _ _ _ differs); [done|].
  intros ->. apply Hcmp. unfold mapIndex in Hidx.
  destruct (stateMap (ssm w) !! key); [eauto | congruence].
Qed.

Lemma SetWithTimeout_eq key value duration w :
  SetWithTimeout key value duration w
  = Ok () {| ssm := {| stateMap := <[key := value]> (stateMap (ssm w));
                       timers := <[key := length (heap w)]> (timers (ssm w));
                       subscribers := subscribers (ssm w) |};
             heap := cancel (timers (ssm w) !! key) (heap w)
                     ++ [{| t_key := key; t_deadline := now w + duration;
                            t_status := Armed |}];
             now := now w;
             sent := sent w ++ deliveries value (subscribersOf (ssm w) key) |}.
Proof.
  unfold SetWithTimeout. unfold_m. simpl.
  rewrite notifySubscribers_fresh. simpl.
  unfold cancel, timerStop, AfterFunc. simpl.
  destruct (timers (ssm w) !! key) as [timer|]; simpl; [|done].
  destruct (heap w !! timer) as [t|]; simpl; [|done].
  by rewrite length_insert.
Qed.

Lemma expireKey_eq key w :
  expireKey key w
  = Ok () {| ssm := {| stateMap := delete key (stateMap (ssm w));
                       timers := delete key (timers (ssm w));
                       subscribers := subscribers (ssm w) |};
             heap := cancel (timers (ssm w) !! key) (heap w);
             now := now w;
             sent := sent w ++ deliveries (ExpirationNotification key)
                                 (subscribersOf (ssm w) key) |}.
Proof.
  unfold expireKey. unfold_m. simpl.
  unfold cancel, timerStop. simpl.
  destruct (timers (ssm w) !! key) as [timer|] eqn:Htm; simpl.
  - destruct (heap w !! timer) as [t|]; simpl;
      by rewrite forRange_send.
  - rewrite forRange_send. unfold addSent; simpl.
    by rewrite (delete_id (timers (ssm w)) key Htm).
Qed.

Lemma Delete_eq key w : Delete key w = expireKey key w.
Proof. reflexivity. Qed.

(** ** What a call leaves alone *)

Lemma notifyBody_frame value exists_ oldValue sub w :
  sameStore w (after (notifyBody value exists_ oldValue sub w)).
Proof.
  unfold notifyBody, sameStore. rewrite run_bind.
  destruct (ConditionalNotifications sub); simpl; [|done].
  destruct exists_; simpl; [|done].
  unfold ifaceNe. destruct (iface_ne oldValue value) as [[]|]; done.
Qed.

(** Whether the loop completes or faults, it only sends. *)
Lemma notifyLoop_frame subs value exists_ oldValue w :
  sameStore w (after (forRange subs (notifyBody value exists_ oldValue) w)).
Proof.
  revert w. induction subs as [|sub subs IH]; intros w; simpl; [done|].
  rewrite run_bind.
  pose proof (notifyBody_frame value exists_ oldValue sub w) as Hb.
  destruct (notifyBody value exists_ oldValue sub w) as [[] w1|w1];
    simpl in *; [|done].
  destruct (IH w1) as (?&?&?). destruct Hb as (?&?&?).
  unfold sameStore. split_and!; congruence.
Qed.

(** [Set] is the loop of [notifySubscribers] run on the updated store. *)
Lemma Set_unfold key value w :
  Set_ key value w
  = forRange (subscribersOf (ssm w) key)
      (notifyBody value (mapIndex (stateMap (ssm w)) key).2
                        (mapIndex (stateMap (ssm w)) key).1)
      {| ssm := {| stateMap := <[key := value]> (stateMap (ssm w));
                   timers := timers (ssm w);
                   subscribers := subscribers (ssm w) |};
         heap := heap w; now := now w; sent := sent w |}.
Proof.
  unfold Set_. rewrite run_bind. unfold getSSM.
  destruct (mapIndex (stateMap (ssm w)) key); reflexivity.
Qed.

Lemma Set_frame key value w :
  ssm (after (Set_ key value w))
  = {| stateMap := <[key := value]> (stateMap (ssm w));
       timers := timers (ssm w); subscribers := subscribers (ssm w) |}
  ∧ heap (after (Set_ key value w)) = heap w
  ∧ now (after (Set_ key value w)) = now w.
Proof.
  rewrite Set_unfold.
  match goal with
  | |- context [forRange ?subs (notifyBody ?v ?e ?o) ?w0] =>
      destruct (notifyLoop_frame subs v e o w0) as (H1&H2&H3)
  end.
  by rewrite H1, H2, H3.
Qed.

(** ** Reading *)

(** C2. Whatever the store held, and whether or not the notification loop
    of [Set] ran to its end, a [Get] of the key right after [Set(key, value)]
    returns [(value, true)] (and leaves the world as it is). *)
Theorem Get_after_Set key value w :
  Get key (after (Set_ key value w))
  = Ok (value, true) (after (Set_ key value w)).
Proof.
  destruct (Set_frame key value w) as (Hs & _ & _).
  unfold Get. rewrite run_bind. unfold getSSM at 1.
  rewrite Hs. simpl. unfold mapIndex. by rewrite lookup_insert_eq.
Qed.

(** C8. [GetString] reports the stored string with [true] exactly when the
    key holds a value of dynamic type string; for an absent key and for a
    value of any other dynamic type it reports the empty string with
    [false].  In every case the world it returns is the world it was
    given. *)
Theorem GetString_spec key w :
  GetString key w
  = Ok (match stateMap (ssm w) !! key with
        | Some (VString s) => (s, true)
        | Some _ | None => (""%string, false)
        end) w.
Proof.
  unfold GetString. rewrite run_bind. unfold getSSM at 1. unfold mapIndex.
  destruct (stateMap (ssm w) !! key) as [[]|]; reflexivity.
Qed.

(** C9. [GetStruct] and [Get] are the same function of the world: for every
    key and every world they return the same pair and the same world. *)
Theorem GetStruct_eq_Get key w : GetStruct key w = Get key w.
Proof.
  unfold GetStruct, Get. rewrite !run_bind. unfold getSSM. unfold mapIndex.
  destruct (stateMap (ssm w) !! key); reflexivity.
Qed.

(** ** Writing *)

(** C7. A plain [Set] leaves the timer map, the subscriber registry, the
    runtime's timers (their keys, deadlines and whether they are pending)
    and the clock exactly as they were, whether or not its notification
    loop ran to its end. *)
Theorem Set_keeps_timers key value w :
  timers (ssm (after (Set_ key value w))) = timers (ssm w)
  ∧ subscribers (ssm (after (Set_ key value w))) = subscribers (ssm w)
  ∧ heap (after (Set_ key value w)) = heap w
  ∧ now (after (Set_ key value w)) = now w.
Proof.
  destruct (Set_frame key value w) as (Hs & Hh & Hn).
  rewrite Hs. done.
Qed.

(** C3. [SetWithTimeout] always completes, and what it sends is the new
    value once to every subscription of the key, in registration order:
    neither the conditional flag nor the value the key held before plays
    a part. *)
Theorem SetWithTimeout_notifies_all key value duration w :
  ∃ w', SetWithTimeout key value duration w = Ok () w'
        ∧ sent w' = sent w ++ deliveries value (subscribersOf (ssm w) key)
        ∧ subscribers (ssm w') = subscribers (ssm w).
Proof. rewrite SetWithTimeout_eq. eauto. Qed.

(** ** Invariants of the timer bookkeeping *)

Lemma stopped_not_armed t : t_status (stopped t) ≠ Armed.
Proof. unfold stopped; simpl. by destruct (t_status t). Qed.

Lemma length_cancel o (h : list Timer) : length (cancel o h) = length h.
Proof.
  unfold cancel. destruct o as [timer|]; [|done].
  destruct (h !! timer); [|done]. by rewrite length_insert.
Qed.

Lemma cancel_lookup_Some o (h : list Timer) (id : nat) (t' : Timer) :
  cancel o h !! id = Some t' ↔
  ∃ t, h !! id = Some t ∧ t' = if decide (o = Some id) then stopped t else t.
Proof.
  unfold cancel. destruct o as [timer|].
  - destruct (h !! timer) as [t0|] eqn:E.
    + rewrite list_lookup_insert_Some. split.
      * intros [(-> & <- & _) | (Hne & Hl)].
        -- exists t0. by rewrite decide_True.
        -- exists t'. rewrite decide_False by congruence. done.
      * intros (t & Hl & ->). destruct (decide (Some timer = Some id)) as [e|n].
        -- inversion e; subst. left. split_and!; [done| |].
           ++ congruence.
           ++ by eapply lookup_lt_Some.
        -- right. split; [congruence|done].
    + split.
      * intros Hl. exists t'. split; [done|].
        rewrite decide_False; [done|]. intros [= ->]. congruence.
      * intros (t & Hl & ->). rewrite decide_False; [done|].
        intros [= ->]. congruence.
  - split.
    + intros Hl. exists t'. by rewrite decide_False.
    + intros (t & Hl & ->). by rewrite decide_False.
Qed.

Lemma wf_boot : wf boot.
Proof. split; simpl; intros; by simplify_map_eq. Qed.

Lemma wf_sameTimers w w' :
  timers (ssm w') = timers (ssm w) → heap w' = heap w →
  (∀ k, is_Some (stateMap (ssm w) !! k) → is_Some (stateMap (ssm w') !! k)) →
  wf w → wf w'.
Proof.
  intros Ht Hh Hv [H1 H2 H3]. split; rewrite ?Ht, ?Hh; eauto.
Qed.

Lemma wf_Set key value w : wf w → wf (after (Set_ key value w)).
Proof.
  destruct (Set_frame key value w) as (Hs & Hh & _).
  apply wf_sameTimers; [by rewrite Hs|done|].
  intros k Hk. rewrite Hs. simpl.
  destruct (decide (key = k)) as [->|]; by simplify_map_eq.
Qed.

Lemma wf_SetWithTimeout key value duration w :
  wf w → wf (after (SetWithTimeout key value duration w)).
Proof.
  intros [H1 H2 H3]. rewrite SetWithTimeout_eq. split; simpl.
  - intros id t' Hl Harm. apply lookup_snoc_Some in Hl as [[_ Hl] | [-> <-]].
    + apply cancel_lookup_Some in Hl as (t & Hl & ->).
      destruct (decide (timers (ssm w) !! key = Some id)) as [e|n].
      * by apply stopped_not_armed in Harm.
      * pose proof (H1 _ _ Hl Harm) as Hreg.
        rewrite lookup_insert_ne; [done|]. by intros ->.
    + simpl. rewrite length_cancel. by rewrite lookup_insert_eq.
  - intros k id Hl. destruct (decide (key = k)) as [->|Hne].
    + rewrite lookup_insert_eq in Hl. injection Hl as <-.
      eexists. split.
      * apply lookup_snoc_Some. right.
        split; [by rewrite length_cancel | reflexivity].
      * reflexivity.
    + rewrite lookup_insert_ne in Hl by done.
      destruct (H2 _ _ Hl) as (t & Ht & Hk).
      eexists. split.
      * apply lookup_app_l_Some, cancel_lookup_Some. eauto.
      * by destruct (decide _).
  - intros k id Hl. destruct (decide (key = k)) as [->|Hne].
    + by rewrite lookup_insert_eq.
    + rewrite lookup_insert_ne in Hl by done.
      rewrite lookup_insert_ne by done. eauto.
Qed.

Lemma wf_expireKey key w : wf w → wf (after (expireKey key w)).
Proof.
  intros [H1 H2 H3]. rewrite expireKey_eq. split; simpl.
  - intros id t' Hl Harm. apply cancel_lookup_Some in Hl as (t & Hl & ->).
    destruct (decide (timers (ssm w) !! key = Some id)) as [e|n].
    + by apply stopped_not_armed in Harm.
    + pose proof (H1 _ _ Hl Harm) as Hreg.
      rewrite lookup_delete_ne; [done|]. by intros ->.
  - intros k id Hl. apply lookup_delete_Some in Hl as [Hne Hl].
    destruct (H2 _ _ Hl) as (t & Ht & Hk).
    eexists. split; [apply cancel_lookup_Some; eauto|].
    by destruct (decide _).
  - intros k id Hl. apply lookup_delete_Some in Hl as [Hne Hl].
    rewrite lookup_delete_ne by done. eauto.
Qed.

Lemma wf_Subscribe key ch conditional w :
  wf w → wf (after (Subscribe key ch conditional w)).
Proof. by apply wf_sameTimers. Qed.

Lemma wf_call c w : wf w → wf (after (call c w)).
Proof.
  destruct c; simpl.
  - apply wf_Set.
  - apply wf_SetWithTimeout.
  - rewrite Delete_eq. apply wf_expireKey.
  - apply wf_Subscribe.
Qed.

Lemma wf_fired timer t w :
  heap w !! timer = Some t → wf w →
  wf {| ssm := ssm w; heap := <[timer := fired t]> (heap w);
        now := now w; sent := sent w |}.
Proof.
  intros Ht [H1 H2 H3]. split; simpl; [| |done].
  - intros id t' Hl Harm.
    apply list_lookup_insert_Some in Hl as [(_ & <- & _) | (_ & Hl)]; eauto.
    done.
  - intros k id Hl. destruct (H2 _ _ Hl) as (t0 & Ht0 & Hk).
    destruct (decide (timer = id)) as [->|Hne].
    + exists (fired t). split.
      * apply list_lookup_insert_eq. by eapply lookup_lt_Some.
      * simpl. congruence.
    + exists t0. by rewrite list_lookup_insert_ne.
Qed.

Lemma wf_exec e w w' : exec e w = Some w' → wf w → wf w'.
Proof.
  destruct e as [c|d|timer]; simpl.
  - intros He Hw. pose proof (wf_call c w Hw) as Hc.
    destruct (call c w); by simplify_eq.
  - unfold tick. case_bool_decide; [|done]. intros [= <-].
    by apply wf_sameTimers.
  - unfold fire. destruct (heap w !! timer) as [t|] eqn:Ht; [|done].
    destruct (due t w); [|done]. intros He Hw.
    pose proof (wf_expireKey (t_key t) _ (wf_fired timer t w Ht Hw)) as Hc.
    destruct (expireKey _ _); by simplify_eq.
Qed.

Lemma wf_run evs w w' : run evs w = Some w' → wf w → wf w'.
Proof.
  revert w. induction evs as [|e evs IH]; intros w; simpl.
  - by intros [= <-].
  - destruct (exec e w) as [w1|] eqn:He; [|done].
    intros Hr Hw. eapply IH; [done|]. by eapply wf_exec.
Qed.

(** ** Timers only ever move from pending to not pending *)

Lemma heap_le_refl h : heap_le h h.
Proof. intros id t Ht. eauto. Qed.

Lemma heap_le_trans h1 h2 h3 : heap_le h1 h2 → heap_le h2 h3 → heap_le h1 h3.
Proof.
  intros H12 H23 id t Ht.
  destruct (H12 _ _ Ht) as (t2 & Ht2 & Hk2 & Hd2 & Ha2).
  destruct (H23 _ _ Ht2) as (t3 & Ht3 & Hk3 & Hd3 & Ha3).
  exists t3. split_and!; [done|congruence|congruence|].
  intros Harm. pose proof (Ha3 Harm) as ->. by apply Ha2.
Qed.

Lemma heap_le_cancel o h : heap_le h (cancel o h).
Proof.
  intros id t Ht. eexists. split; [apply cancel_lookup_Some; eauto|].
  destruct (decide (o = Some id)); [|done].
  split_and!; [done|done|]. intros Harm. by apply stopped_not_armed in Harm.
Qed.

Lemma heap_le_fired timer t h :
  h !! timer = Some t → heap_le h (<[timer := fired t]> h).
Proof.
  intros Ht id t0 Ht0. destruct (decide (timer = id)) as [->|Hne].
  - exists (fired t). split; [|by simplify_eq].
    apply list_lookup_insert_eq. by eapply lookup_lt_Some.
  - exists t0. by rewrite list_lookup_insert_ne.
Qed.

Lemma heap_le_snoc h t : heap_le h (h ++ [t]).
Proof. intros id t0 Ht0. exists t0. split; [by apply lookup_app_l_Some|done]. Qed.

Lemma heap_le_call c w : heap_le (heap w) (heap (after (call c w))).
Proof.
  destruct c as [key value|key value duration|key|key ch conditional]; simpl.
  - destruct (Set_frame key value w) as (_ & -> & _). apply heap_le_refl.
  - rewrite SetWithTimeout_eq. simpl.
    eapply heap_le_trans; [apply heap_le_cancel|apply heap_le_snoc].
  - rewrite Delete_eq, expireKey_eq. simpl. apply heap_le_cancel.
  - apply heap_le_refl.
Qed.

Lemma heap_le_exec e w w' : exec e w = Some w' → heap_le (heap w) (heap w').
Proof.
  destruct e as [c|d|timer]; simpl.
  - intros He. pose proof (heap_le_call c w) as Hc.
    destruct (call c w); by simplify_eq.
  - unfold tick. case_bool_decide; [|done]. intros [= <-]. apply heap_le_refl.
  - unfold fire. destruct (heap w !! timer) as [t|] eqn:Ht; [|done].
    destruct (due t w); [|done]. rewrite expireKey_eq. intros [= <-]. simpl.
    eapply heap_le_trans; [by apply heap_le_fired|apply heap_le_cancel].
Qed.

Lemma heap_le_run evs w w' : run evs w = Some w' → heap_le (heap w) (heap w').
Proof.
  revert w. induction evs as [|e evs IH]; intros w; simpl.
  - intros [= <-]. apply heap_le_refl.
  - destruct (exec e w) as [w1|] eqn:He; [|done]. intros Hr.
    eapply heap_le_trans; [by eapply heap_le_exec|by apply IH].
Qed.

(** A timer has to be pending to fire. *)
Lemma exec_Fire_Some timer w w' :
  exec (Fire timer) w = Some w' →
  ∃ t, heap w !! timer = Some t ∧ t_status t = Armed ∧ t_deadline t ≤ now w
       ∧ expireKey (t_key t)
           {| ssm := ssm w; heap := <[timer := fired t]> (heap w);
              now := now w; sent := sent w |} = Ok () w'.
Proof.
  simpl. unfold fire. destruct (heap w !! timer) as [t|]; [|done].
  unfold due. case_bool_decide; [|done]. case_bool_decide; [|done]. simpl.
  intros He. exists t. split_and!; [done..|].
  destruct (expireKey _ _) as [[] ?|]; by simplify_eq.
Qed.

(** A timer that is not pending can never fire, whatever happens next. *)
Lemma not_armed_never_fires timer t evs w w' :
  heap w !! timer = Some t → t_status t ≠ Armed →
  run evs w = Some w' → exec (Fire timer) w' = None.
Proof.
  intros Ht Hst Hr.
  destruct (heap_le_run _ _ _ Hr _ _ Ht) as (t' & Ht' & _ & _ & Ha).
  destruct (exec (Fire timer) w') as [w''|] eqn:He; [|done].
  apply exec_Fire_Some in He as (t'' & Ht'' & Harm & _).
  assert (t'' = t') as -> by congruence.
  pose proof (Ha Harm) as ->. done.
Qed.

(** ** What the subscribers of one key see of events on other keys *)

Lemma expirations_app k tr1 tr2 :
  expirations k (tr1 ++ tr2) = expirations k tr1 ++ expirations k tr2.
Proof. apply List.filter_app. Qed.

Lemma expirations_deliveries_other k v subs :
  v ≠ ExpirationNotification k → expirations k (deliveries v subs) = [].
Proof.
  intros Hv. induction subs as [|sub subs IH]; simpl; [done|].
  by rewrite bool_decide_eq_false_2.
Qed.

Lemma expirations_deliveries_same k subs :
  expirations k (deliveries (ExpirationNotification k) subs)
  = deliveries (ExpirationNotification k) subs.
Proof.
  induction subs as [|sub subs IH]; simpl; [done|].
  rewrite bool_decide_eq_true_2 by done. by rewrite IH.
Qed.

(** Whether it completes or faults, the loop of [notifySubscribers] sends
    the new value, and only that, to some of the subscriptions. *)
Lemma notifyLoop_sends subs value exists_ oldValue w :
  ∃ subs', sent (after (forRange subs (notifyBody value exists_ oldValue) w))
           = sent w ++ deliveries value subs'.
Proof.
  revert w. induction subs as [|sub subs IH]; intros w; simpl.
  - exists []. simpl. by rewrite app_nil_r.
  - rewrite run_bind.
    assert (∃ l, sent (after (notifyBody value exists_ oldValue sub w))
                 = sent w ++ deliveries value l) as [l Hl].
    { unfold notifyBody. rewrite run_bind.
      destruct (ConditionalNotifications sub); simpl;
        [|by exists [sub]].
      destruct exists_; simpl; [|by exists [sub]].
      unfold ifaceNe. destruct (iface_ne oldValue value) as [[]|]; simpl.
      - by exists [sub].
      - exists []. simpl. by rewrite app_nil_r.
      - exists []. simpl. by rewrite app_nil_r. }
    destruct (notifyBody value exists_ oldValue sub w) as [[] w1|w1];
      simpl in *; [|eauto].
    destruct (IH w1) as [l' Hl']. exists (l ++ l').
    rewrite Hl', Hl. unfold deliveries. by rewrite map_app, app_assoc.
Qed.

Lemma Set_sends key value w :
  ∃ subs', sent (after (Set_ key value w)) = sent w ++ deliveries value subs'.
Proof.
  rewrite Set_unfold.
  match goal with
  | |- context [forRange ?subs (notifyBody ?v ?e ?o) ?w0] =>
      destruct (notifyLoop_sends subs v e o w0) as [l Hl]
  end.
  exists l. by rewrite Hl.
Qed.

Lemma cancel_other w k key (id : nat) (t : Timer) :
  wf w → k ≠ key → heap w !! id = Some t → t_key t = key →
  cancel (timers (ssm w) !! k) (heap w) !! id = Some t.
Proof.
  intros Hw Hne Ht Hk. apply cancel_lookup_Some. exists t. split; [done|].
  rewrite decide_False; [done|]. intros Hreg.
  destruct (wf_timer _ Hw _ _ Hreg) as (t0 & Ht0 & Hk0). congruence.
Qed.

Lemma cancel_fresh o (h : list Timer) (id : nat) :
  h !! id = None → cancel o h !! id = None.
Proof.
  intros Hn. apply lookup_ge_None. rewrite length_cancel.
  by apply lookup_ge_None.
Qed.

Lemma unaffected_refl key w : unaffected key w w.
Proof. split; un_trivial. Qed.

Lemma unaffected_trans key w1 w2 w3 :
  unaffected key w1 w2 → unaffected key w2 w3 → unaffected key w1 w3.
Proof.
  intros [A1 A2 A3 A4 A5 AL A6 (tr1 & A7 & A8)]
         [B1 B2 B3 B4 B5 BL B6 (tr2 & B7 & B8)].
  split; [congruence|congruence|congruence|eauto| | |lia|].
  - intros id t' Hn Ht'. destruct (heap w2 !! id) as [t2|] eqn:H2; [|eauto].
    destruct (BL _ _ H2) as (t3 & Ht3 & Hk3 & _).
    assert (t3 = t') as -> by congruence.
    rewrite Hk3. eauto.
  - by eapply heap_le_trans.
  - exists (tr1 ++ tr2). rewrite B7, A7, expirations_app, A8, B8.
    by rewrite app_assoc.
Qed.

Lemma unaffected_Set key k value w :
  wf w → k ≠ key → value ≠ ExpirationNotification key →
  unaffected key w (after (Set_ k value w)).
Proof.
  intros Hw Hne Hv.
  destruct (Set_frame k value w) as (Hs & Hh & Hn).
  destruct (Set_sends k value w) as (subs' & Hsent).
  split; rewrite ?Hs, ?Hh, ?Hn; simpl; un_trivial.
  - by rewrite lookup_insert_ne.
  - exists (deliveries value subs'). split; [done|].
    by apply expirations_deliveries_other.
Qed.

Lemma unaffected_SetWithTimeout key k value duration w :
  wf w → k ≠ key → value ≠ ExpirationNotification key →
  unaffected key w (after (SetWithTimeout k value duration w)).
Proof.
  intros Hw Hne Hv. rewrite SetWithTimeout_eq.
  split; simpl; un_trivial.
  - by rewrite lookup_insert_ne.
  - by rewrite lookup_insert_ne.
  - intros id t Ht Hk. apply lookup_app_l_Some. by eapply cancel_other.
  - intros id t' Hn Ht'.
    apply lookup_snoc_Some in Ht' as [[_ Ht'] | [_ <-]].
    + by rewrite cancel_fresh in Ht'.
    + done.
  - eapply heap_le_trans; [apply heap_le_cancel|apply heap_le_snoc].
  - eexists. split; [done|]. by apply expirations_deliveries_other.
Qed.

Lemma unaffected_expireKey key k w :
  wf w → k ≠ key → unaffected key w (after (expireKey k w)).
Proof.
  intros Hw Hne. rewrite expireKey_eq.
  split; simpl; un_trivial.
  - by rewrite lookup_delete_ne.
  - by rewrite lookup_delete_ne.
  - intros id t Ht Hk. by eapply cancel_other.
  - intros id t' Hn Ht'. by rewrite cancel_fresh in Ht'.
  - apply heap_le_cancel.
  - eexists. split; [done|]. apply expirations_deliveries_other. congruence.
Qed.

Lemma unaffected_Subscribe key k ch conditional w :
  k ≠ key → unaffected key w (after (Subscribe k ch conditional w)).
Proof.
  intros Hne. split; simpl; un_trivial.
  - unfold subscribersOf; simpl. by rewrite lookup_insert_ne.
Qed.

Lemma unaffected_fired key timer t w :
  heap w !! timer = Some t → t_key t ≠ key →
  unaffected key w {| ssm := ssm w; heap := <[timer := fired t]> (heap w);
                      now := now w; sent := sent w |}.
Proof.
  intros Ht Hne. split; simpl; un_trivial.
  - intros id t0 Ht0 Hk. rewrite list_lookup_insert_ne; [done|].
    intros ->. congruence.
  - intros id t' Hn Ht'.
    apply list_lookup_insert_Some in Ht' as [(_ & <- & _) | (_ & Ht')];
      [done|congruence].
  - by apply heap_le_fired.
Qed.

(** An event that does not interfere with [key], and is not the firing of a
    timer made for [key], leaves everything about [key] as it was. *)
Lemma exec_other key e w w' :
  wf w → exec e w = Some w' → interferes key e = false →
  (∀ timer t, e = Fire timer → heap w !! timer = Some t →
              t_status t = Armed → t_key t ≠ key) →
  unaffected key w w'.
Proof.
  intros Hw He Hi Hf. destruct e as [c|d|timer].
  - simpl in Hi. apply orb_false_elim in Hi as [Hk Hv].
    apply bool_decide_eq_false in Hk. apply bool_decide_eq_false in Hv.
    simpl in He.
    assert (unaffected key w (after (call c w))) as Hun.
    { destruct c as [k v|k v d|k|k ch cnd]; simpl in *.
      - apply unaffected_Set; [done|done|congruence].
      - apply unaffected_SetWithTimeout; [done|done|congruence].
      - rewrite Delete_eq. by apply unaffected_expireKey.
      - by apply unaffected_Subscribe. }
    destruct (call c w); by simplify_eq.
  - simpl in He. unfold tick in He. case_bool_decide; [|done].
    injection He as <-. split; simpl; un_trivial.
  - apply exec_Fire_Some in He as (t & Ht & Harm & Hdl & He).
    pose proof (Hf timer t eq_refl Ht Harm) as Hne.
    eapply unaffected_trans; [by apply unaffected_fired|].
    pose proof (unaffected_expireKey key (t_key t) _
                  (wf_fired timer t w Ht Hw) Hne) as Hun.
    by rewrite He in Hun.
Qed.

(** ** The life of a timed key *)

Lemma pending_SetWithTimeout key value duration w :
  wf w →
  pending key (length (heap w)) (now w + duration)
          (subscribersOf (ssm w) key)
          (after (SetWithTimeout key value duration w)).
Proof.
  intros Hw. split.
  - by apply wf_SetWithTimeout.
  - rewrite SetWithTimeout_eq. simpl. by rewrite lookup_insert_eq.
  - rewrite SetWithTimeout_eq. simpl. apply lookup_snoc_Some. right.
    by rewrite length_cancel.
  - by rewrite SetWithTimeout_eq.
Qed.

(** When the pending timer of [key] fires, the key and its timer record go
    and each subscriber is sent one expiration notification. *)
Lemma pending_fire key timer deadline subs w w' :
  pending key timer deadline subs w →
  exec (Fire timer) w = Some w' →
  idle key w' ∧ wf w' ∧ deadline ≤ now w' ∧ now w' = now w
  ∧ stateMap (ssm w') !! key = None ∧ timers (ssm w') !! key = None
  ∧ subscribersOf (ssm w') key = subs
  ∧ sent w' = sent w ++ deliveries (ExpirationNotification key) subs.
Proof.
  intros [Hw Hreg Ht Hsubs] He.
  pose proof (wf_exec _ _ _ He Hw) as Hw'.
  apply exec_Fire_Some in He as (t & Ht' & _ & Hdl & He).
  rewrite Ht in Ht'. injection Ht' as <-. simpl in *.
  rewrite expireKey_eq in He. injection He as <-. simpl in *.
  split_and!; try done; [|by rewrite lookup_delete_eq..|by rewrite Hsubs].
  intros id t' Hl Hk Harm. simpl in Hl. rewrite ?Hreg in Hl.
  apply cancel_lookup_Some in Hl as (t0 & Hl & ->).
  destruct (decide (Some timer = Some id)) as [e|n].
  - by apply stopped_not_armed in Harm.
  - apply list_lookup_insert_Some in Hl as [(-> & _) | (_ & Hl)]; [done|].
    pose proof (wf_armed _ Hw _ _ Hl Harm) as Hr. congruence.
Qed.

(** While the timer of [key] is pending, the only event that can tell
    [key]'s subscribers anything about an expiration is its firing. *)
Lemma pending_other key timer deadline subs e w w' :
  pending key timer deadline subs w →
  exec e w = Some w' → interferes key e = false → e ≠ Fire timer →
  pending key timer deadline subs w' ∧ unaffected key w w'.
Proof.
  intros [Hw Hreg Ht Hsubs] He Hi Hne.
  assert (unaffected key w w') as Hun.
  { eapply exec_other; [done..|].
    intros id t -> Hl Harm Hk.
    pose proof (wf_armed _ Hw _ _ Hl Harm) as Hr. congruence. }
  split; [|done]. split.
  - by eapply wf_exec.
  - by rewrite (un_timers _ _ _ Hun).
  - by apply (un_heap _ _ _ Hun).
  - by rewrite (un_subs _ _ _ Hun).
Qed.

Lemma idle_other key e w w' :
  wf w → idle key w →
  exec e w = Some w' → interferes key e = false →
  idle key w' ∧ unaffected key w w'.
Proof.
  intros Hw Hidle He Hi.
  assert (unaffected key w w') as Hun.
  { eapply exec_other; [done..|].
    intros id t -> Hl Harm Hk. by eapply Hidle. }
  split; [|done]. intros id t' Hl Hk Harm.
  destruct (heap w !! id) as [t|] eqn:Hold.
  - destruct (un_le _ _ _ Hun _ _ Hold) as (t2 & Ht2 & _ & _ & Ha).
    assert (t2 = t') as -> by congruence.
    pose proof (Ha Harm) as ->. by eapply Hidle.
  - by eapply (un_new _ _ _ Hun).
Qed.

Lemma idle_run key evs w w' :
  wf w → idle key w →
  Forall (λ e, interferes key e = false) evs → run evs w = Some w' →
  idle key w' ∧ wf w' ∧ unaffected key w w'.
Proof.
  revert w. induction evs as [|e evs IH]; intros w Hw Hidle Hall; simpl.
  - intros [= <-]. split_and!; [done..|apply unaffected_refl].
  - apply Forall_cons in Hall as [Hi Hall].
    destruct (exec e w) as [w1|] eqn:He; [|done]. intros Hr.
    destruct (idle_other _ _ _ _ Hw Hidle He Hi) as [Hidle1 Hun1].
    destruct (IH w1 (wf_exec _ _ _ He Hw) Hidle1 Hall Hr) as (?&?&?).
    split_and!; [done..|by eapply unaffected_trans].
Qed.

(** From a world where the timer of [key] is pending, events that do not
    interfere with [key] lead to one of two situations: the timer is still
    pending and nothing about [key] changed, or the timer fired (not
    before its deadline) and since then the subscribers were sent exactly
    one expiration notification each. *)
Lemma pending_run key timer deadline subs evs w w' :
  pending key timer deadline subs w →
  Forall (λ e, interferes key e = false) evs → run evs w = Some w' →
  ((Fire timer ∉ evs) ∧ pending key timer deadline subs w'
   ∧ unaffected key w w')
  ∨ (Fire timer ∈ evs ∧ idle key w' ∧ wf w' ∧ deadline ≤ now w'
     ∧ stateMap (ssm w') !! key = None
     ∧ ∃ tr, sent w' = sent w ++ tr
             ∧ expirations key tr
               = deliveries (ExpirationNotification key) subs).
Proof.
  revert w. induction evs as [|e evs IH]; intros w Hp Hall; simpl.
  - intros [= <-]. left. split_and!; [by apply not_elem_of_nil|done|].
    apply unaffected_refl.
  - apply Forall_cons in Hall as [Hi Hall].
    destruct (exec e w) as [w1|] eqn:He; [|done]. intros Hr.
    destruct (decide (e = Fire timer)) as [->|Hne].
    + right.
      destruct (pending_fire _ _ _ _ _ _ Hp He)
        as (Hidle & Hw1 & Hdl & _ & Hgone & _ & _ & Hsent).
      destruct (idle_run _ _ _ _ Hw1 Hidle Hall Hr) as (Hidle' & Hw' & Hun).
      destruct (un_sent _ _ _ Hun) as (tr & Htr & Hex).
      split_and!; [apply elem_of_cons; by left|done|done| | |].
      * pose proof (un_now _ _ _ Hun). lia.
      * by rewrite (un_value _ _ _ Hun).
      * eexists. split; [rewrite Htr, Hsent, <- app_assoc; reflexivity|].
        by rewrite expirations_app, Hex, expirations_deliveries_same,
                   app_nil_r.
    + destruct (pending_other _ _ _ _ _ _ _ Hp He Hi Hne) as [Hp1 Hun1].
      destruct (IH w1 Hp1 Hall Hr)
        as [(Hnin & Hp' & Hun) | (Hin & Hidle & Hw' & Hdl & Hgone & tr & Htr & Hex)].
      * left. split_and!; [|done|by eapply unaffected_trans].
        intros [?|?]%elem_of_cons; congruence.
      * right. destruct (un_sent _ _ _ Hun1) as (tr1 & Htr1 & Hex1).
        split_and!; [apply elem_of_cons; by right|done..|].
        exists (tr1 ++ tr).
        split; [by rewrite Htr, Htr1, app_assoc|].
        by rewrite expirations_app, Hex1, Hex.
Qed.



(** Two [SetWithTimeout] calls on [key] when calls take no time, so that the
    second one reaches [timer.Stop()] before the first duration has elapsed,
    with nothing but non-interfering events around them.  The second call
    stops the first timer and only then makes and registers a new one; from
    then on the first timer can never fire.  No expiration notification for
    [key] is sent between the two calls, and after the second the
    subscribers of [key] are sent either none or exactly one each, the
    latter only by the firing of the second timer and not before the second
    duration has elapsed.  (The last part of this file looks at the sends
    of the second call outlasting the first duration.) *)
Lemma rearm_cancels_first_timer key v1 d1 v2 d2 w w1 mid w1' w2 evs w3 :
  wf w →
  SetWithTimeout key v1 d1 w = Ok () w1 →
  Forall (λ e, interferes key e = false) mid →
  run mid w1 = Some w1' →
  now w1' < now w + d1 →
  SetWithTimeout key v2 d2 w1' = Ok () w2 →
  Forall (λ e, interferes key e = false) evs →
  run evs w2 = Some w3 →
  (∃ t, heap w1' !! length (heap w) = Some t ∧ t_status t = Armed)
  ∧ (∃ t, heap w2 !! length (heap w) = Some t ∧ t_status t = Stopped)
  ∧ length (heap w) ≠ length (heap w1')
  ∧ timers (ssm w2) !! key = Some (length (heap w1'))
  ∧ heap w2 !! length (heap w1')
    = Some {| t_key := key; t_deadline := now w1' + d2; t_status := Armed |}
  ∧ (∀ evs' w', run evs' w2 = Some w' →
       exec (Fire (length (heap w))) w' = None)
  ∧ (∃ tr, sent w1' = sent w1 ++ tr ∧ expirations key tr = [])
  ∧ ∃ tr, sent w3 = sent w2 ++ tr
          ∧ (expirations key tr = []
             ∨ (expirations key tr
                = deliveries (ExpirationNotification key)
                             (subscribersOf (ssm w) key)
                ∧ Fire (length (heap w1')) ∈ evs
                ∧ now w1' + d2 ≤ now w3)).
Proof.
  intros Hw Hset1 Hmid Hr1 Hearly Hset2 Hevs Hr2.
  pose proof (pending_SetWithTimeout key v1 d1 w Hw) as Hp1.
  rewrite Hset1 in Hp1. simpl in Hp1.
  destruct (pending_run _ _ _ _ _ _ _ Hp1 Hmid Hr1)
    as [(_ & Hp1' & Hun) | (_ & _ & _ & Hdl & _)]; [|lia].
  destruct Hp1' as [Hw1' Hreg1 Ht1 Hsubs1].
  pose proof (pending_SetWithTimeout key v2 d2 w1' Hw1') as Hp2.
  rewrite Hsubs1 in Hp2.
  rewrite SetWithTimeout_eq in Hset2. injection Hset2 as <-.
  rewrite SetWithTimeout_eq in Hp2. simpl in Hp2.
  pose proof (lookup_lt_Some _ _ _ Ht1) as Hlt.
  assert (cancel (timers (ssm w1') !! key) (heap w1') !! length (heap w)
          = Some (stopped {| t_key := key; t_deadline := now w + d1;
                             t_status := Armed |})) as Hstop.
  { apply cancel_lookup_Some. eexists. split; [done|].
    by rewrite Hreg1, decide_True. }
  split_and!; simpl.
  - eauto.
  - eexists. split; [by apply lookup_app_l_Some|done].
  - lia.
  - by rewrite lookup_insert_eq.
  - apply lookup_snoc_Some. right. by rewrite length_cancel.
  - intros evs' w' Hr'. eapply not_armed_never_fires; [|by apply stopped_not_armed|done].
    simpl. by apply lookup_app_l_Some.
  - apply (un_sent _ _ _ Hun).
  - destruct (pending_run _ _ _ _ _ _ _ Hp2 Hevs Hr2)
      as [(_ & _ & Hun2) | (Hin & _ & _ & Hdl2 & _ & tr & Htr & Hex)].
    + destruct (un_sent _ _ _ Hun2) as (tr & Htr & Hex). eauto.
    + exists tr. split; [done|]. right. done.
Qed.

(** C6. In any world the methods can have built, [Delete] completes and
    removes the value and the timer record of [key]; afterwards no timer
    made for [key] is pending, and the timers of the other keys are as
    they were; it sends one [ExpirationNotification{key}] to each
    subscription of [key], in registration order and whatever its
    conditional flag.  When [key] held no value, the three maps, the timers
    and the clock are unchanged, and the notifications are sent all the
    same. *)
Theorem Delete_spec key w :
  wf w →
  ∃ w', Delete key w = Ok () w'
    ∧ stateMap (ssm w') = delete key (stateMap (ssm w))
    ∧ timers (ssm w') = delete key (timers (ssm w))
    ∧ subscribers (ssm w') = subscribers (ssm w)
    ∧ Get key w' = Ok (VNil, false) w'
    ∧ idle key w'
    ∧ (∀ (id : nat) (t : Timer),
         heap w !! id = Some t → t_key t ≠ key → heap w' !! id = Some t)
    ∧ sent w' = sent w ++ deliveries (ExpirationNotification key)
                            (subscribersOf (ssm w) key)
    ∧ (stateMap (ssm w) !! key = None →
       ssm w' = ssm w ∧ heap w' = heap w ∧ now w' = now w).
Proof.
  intros Hw. rewrite Delete_eq, expireKey_eq. eexists. split; [done|].
  simpl. split_and!; try done.
  - unfold Get. rewrite run_bind. unfold getSSM, mapIndex. simpl.
    by rewrite lookup_delete_eq.
  - intros id t' Hl Hk Harm.
    apply cancel_lookup_Some in Hl as (t & Hl & ->).
    destruct (decide (timers (ssm w) !! key = Some id)) as [e|n].
    + by apply stopped_not_armed in Harm.
    + pose proof (wf_armed _ Hw _ _ Hl Harm) as Hr. congruence.
  - intros id t Hl Hk. apply cancel_lookup_Some. exists t. split; [done|].
    rewrite decide_False; [done|]. intros Hreg.
    destruct (wf_timer _ Hw _ _ Hreg) as (t0 & Ht0 & Hk0). congruence.
  - intros Habs.
    assert (timers (ssm w) !! key = None) as Hnt.
    { destruct (timers (ssm w) !! key) as [id|] eqn:Hreg; [|done].
      destruct (wf_value _ Hw _ _ Hreg) as [v Hv]. congruence. }
    rewrite Hnt. simpl. split; [|done].
    rewrite (delete_id _ _ Habs), (delete_id _ _ Hnt). by destruct (ssm w).
Qed.

(** ** Notification of a plain [Set] *)

(** When the key is new, or the old and the new value can be compared, every
    subscription of the key is sent the new value exactly when its flag is
    off, the key is new, or the values differ. *)
Lemma Set_notifies key value differs w w' :
  (is_Some (stateMap (ssm w) !! key) →
   iface_ne (mapIndex (stateMap (ssm w)) key).1 value = Some differs) →
  Set_ key value w = Ok () w' →
  sent w' = sent w ++ deliveries value
              (List.filter
                 (receives (mapIndex (stateMap (ssm w)) key).2 differs)
                 (subscribersOf (ssm w) key)).
Proof. intros Hcmp. rewrite (Set_ok _ _ differs) by done. by intros [= <-]. Qed.

(** X4. A value that [!=] reports equal to itself, set twice on a new key:
    the first call reaches every subscription, the second only those whose
    flag is off. *)
Lemma Set_same_value_twice key value w :
  iface_ne value value = Some false →
  stateMap (ssm w) !! key = None →
  ∃ w1 w2, Set_ key value w = Ok () w1 ∧ Set_ key value w1 = Ok () w2
    ∧ sent w2 = sent w ++ deliveries value (subscribersOf (ssm w) key)
                ++ deliveries value
                     (List.filter (λ sub, negb (ConditionalNotifications sub))
                                  (subscribersOf (ssm w) key)).
Proof.
  intros Hcmp Habs. do 2 eexists. split_and!.
  - apply (Set_ok _ _ true). rewrite Habs. by intros [? ?].
  - apply (Set_ok _ _ false). simpl. unfold mapIndex.
    by rewrite lookup_insert_eq.
  - simpl. unfold mapIndex. rewrite Habs, lookup_insert_eq. simpl.
    rewrite filter_receives_fresh, <- app_assoc. do 3 f_equal.
    apply List.filter_ext. intros sub. unfold receives.
    by rewrite !orb_false_r.
Qed.

(** C1. Setting ["k"] to the slice it already holds: the comparison made
    for the conditional subscriber faults, the loop is abandoned, and the
    unconditional subscriber registered after it is sent nothing by this
    call.  After the two calls it has been sent the value once, although
    the rule [receives] selects it in every call. *)
Theorem Set_fault_skips_unconditional_subscriber :
  run [Api (CSubscribe "k" 0 true); Api (CSubscribe "k" 1 false);
       Api (CSet "k" (VSliceInt [1]))] boot = Some sliceStored
  ∧ subscribersOf (ssm sliceStored) "k" = [cond0; plain1]
  ∧ faults (Set_ "k" (VSliceInt [1]) sliceStored) = true
  ∧ sent (after (Set_ "k" (VSliceInt [1]) sliceStored)) = sent sliceStored
  ∧ received 1 (VSliceInt [1])
      (sent (after (Set_ "k" (VSliceInt [1]) sliceStored))) = 1%nat
  ∧ (∀ exists_ differs, receives exists_ differs plain1 = true).
Proof.
  split_and!; [by vm_compute..|].
  intros exists_ differs. reflexivity.
Qed.

(** C10. [Set] is not total: with a conditional subscriber on ["k"] and a
    slice stored under ["k"], setting ["k"] to a slice again faults in the
    comparison [oldValue != value]. *)
Theorem Set_faults_on_uncomparable :
  run [Api (CSubscribe "k" 0 true); Api (CSet "k" (VSliceInt [1]))] boot
  = Some sliceStoredOne
  ∧ iface_ne (VSliceInt [1]) (VSliceInt [2]) = None
  ∧ faults (Set_ "k" (VSliceInt [2]) sliceStoredOne) = true
  ∧ exec (Api (CSet "k" (VSliceInt [2]))) sliceStoredOne = None.
Proof. vm_compute. done. Qed.

(** ** The theorems at work on a concrete run *)

Lemma wf_twoSubscribers : wf twoSubscribers.
Proof. apply wf_Subscribe, wf_Subscribe, wf_boot. Qed.


Lemma rearm_cancels_first_timer_witness :
  wf twoSubscribers
  ∧ SetWithTimeout "k" (VInt 7) 5 twoSubscribers = Ok () timedWorld
  ∧ run [Tick 2] timedWorld = Some midWorld
  ∧ now midWorld < now twoSubscribers + 5
  ∧ SetWithTimeout "k" (VInt 8) 5 midWorld = Ok () rearmedWorld
  ∧ run [Tick 5; Fire 1] rearmedWorld = Some lastWorld
  ∧ exec (Fire 0) lastWorld = None
  ∧ ∃ tr, sent lastWorld = sent rearmedWorld ++ tr
          ∧ (expirations "k" tr = []
             ∨ (expirations "k" tr
                = deliveries (ExpirationNotification "k") [cond0; plain1]
                ∧ Fire 1 ∈ [Tick 5; Fire 1]
                ∧ 2 + 5 ≤ now lastWorld)).
Proof.
  assert (SetWithTimeout "k" (VInt 7) 5 twoSubscribers = Ok () timedWorld)
    as H1 by reflexivity.
  assert (run [Tick 2] timedWorld = Some midWorld) as H2
    by (vm_compute; reflexivity).
  assert (now midWorld < now twoSubscribers + 5) as H3
    by (vm_compute; reflexivity).
  assert (SetWithTimeout "k" (VInt 8) 5 midWorld = Ok () rearmedWorld)
    as H4 by reflexivity.
  assert (run [Tick 5; Fire 1] rearmedWorld = Some lastWorld) as H5
    by (vm_compute; reflexivity).
  split_and!; [apply wf_twoSubscribers|done..| |].
  - destruct (rearm_cancels_first_timer "k" (VInt 7) 5 (VInt 8) 5
                twoSubscribers timedWorld [Tick 2] midWorld rearmedWorld
                [Tick 5; Fire 1] lastWorld wf_twoSubscribers H1
                ltac:(repeat constructor) H2 H3 H4
                ltac:(repeat constructor) H5)
      as (_ & _ & _ & _ & _ & Hnever & _).
    apply (Hnever [Tick 5; Fire 1]). exact H5.
  - destruct (rearm_cancels_first_timer "k" (VInt 7) 5 (VInt 8) 5
                twoSubscribers timedWorld [Tick 2] midWorld rearmedWorld
                [Tick 5; Fire 1] lastWorld wf_twoSubscribers H1
                ltac:(repeat constructor) H2 H3 H4
                ltac:(repeat constructor) H5)
      as (_ & _ & _ & _ & _ & _ & _ & Hone).
    exact Hone.
Defined.

Lemma Delete_spec_witness :
  wf timedWorld
  ∧ ∃ w', Delete "k" timedWorld = Ok () w'
          ∧ Get "k" w' = Ok (VNil, false) w'
          ∧ timers (ssm w') = delete "k" (timers (ssm timedWorld))
          ∧ sent w' = sent timedWorld
                      ++ deliveries (ExpirationNotification "k")
                                    [cond0; plain1].
Proof.
  assert (wf timedWorld) as Hw
    by apply wf_SetWithTimeout, wf_twoSubscribers.
  split; [exact Hw|].
  destruct (Delete_spec "k" timedWorld Hw)
    as (w' & Hd & _ & Ht & _ & Hg & _ & _ & Hs & _).
  exists w'. split_and!; done.
Defined.

(** * Further properties of the methods *)

(** ** Keys that were never set *)

Lemma absent_exec k e w w' :
  stateMap (ssm w) !! k = None → writes k e = false →
  exec e w = Some w' → stateMap (ssm w') !! k = None.
Proof.
  intros Habs Hwr He. destruct e as [c|d|timer].
  - simpl in He.
    assert (stateMap (ssm (after (call c w))) !! k = None) as Hc.
    { destruct c as [key v|key v d|key|key ch cnd]; simpl in *.
      - apply bool_decide_eq_false in Hwr.
        destruct (Set_frame key v w) as (-> & _). simpl.
        by rewrite lookup_insert_ne.
      - apply bool_decide_eq_false in Hwr.
        rewrite SetWithTimeout_eq. simpl. by rewrite lookup_insert_ne.
      - rewrite Delete_eq, expireKey_eq. simpl.
        apply lookup_delete_None. by right.
      - done. }
    destruct (call c w); by simplify_eq.
  - simpl in He. unfold tick in He. case_bool_decide; by simplify_eq.
  - apply exec_Fire_Some in He as (t & _ & _ & _ & He).
    rewrite expireKey_eq in He. injection He as <-. simpl.
    apply lookup_delete_None. by right.
Qed.

Lemma absent_run k evs w w' :
  stateMap (ssm w) !! k = None → Forall (λ e, writes k e = false) evs →
  run evs w = Some w' → stateMap (ssm w') !! k = None.
Proof.
  revert w. induction evs as [|e evs IH]; intros w Habs Hall; simpl.
  - by intros [= <-].
  - apply Forall_cons in Hall as [Hwr Hall].
    destruct (exec e w) as [w1|] eqn:He; [|done].
    apply IH; [by eapply absent_exec|done].
Qed.

(** X1. From a new manager, whatever was subscribed, deleted, set under other
    keys or expired since: a key on which [Set] and [SetWithTimeout] were
    never called is reported absent by all three readers. *)
Theorem never_set_not_found k evs w :
  Forall (λ e, writes k e = false) evs →
  run evs boot = Some w →
  Get k w = Ok (VNil, false) w
  ∧ GetString k w = Ok (""%string, false) w
  ∧ GetStruct k w = Ok (VNil, false) w.
Proof.
  intros Hall Hr.
  assert (stateMap (ssm w) !! k = None) as Habs
    by (eapply absent_run; [|done..]; done).
  unfold Get, GetString, GetStruct. rewrite !run_bind.
  unfold getSSM, mapIndex. by rewrite Habs.
Qed.

Lemma never_set_not_found_witness :
  Forall (λ e, writes "k" e = false)
    [Api (CSubscribe "k" 0 true); Api (CSetWithTimeout "j" (VInt 1) 3);
     Api (CDelete "k"); Tick 3; Fire 0]
  ∧ run [Api (CSubscribe "k" 0 true); Api (CSetWithTimeout "j" (VInt 1) 3);
         Api (CDelete "k"); Tick 3; Fire 0] boot
    = Some (default boot
              (run [Api (CSubscribe "k" 0 true);
                    Api (CSetWithTimeout "j" (VInt 1) 3);
                    Api (CDelete "k"); Tick 3; Fire 0] boot))
  ∧ Get "k" (default boot
              (run [Api (CSubscribe "k" 0 true);
                    Api (CSetWithTimeout "j" (VInt 1) 3);
                    Api (CDelete "k"); Tick 3; Fire 0] boot))
    = Ok (VNil, false)
         (default boot
              (run [Api (CSubscribe "k" 0 true);
                    Api (CSetWithTimeout "j" (VInt 1) 3);
                    Api (CDelete "k"); Tick 3; Fire 0] boot)).
Proof.
  assert (Forall (λ e, writes "k" e = false)
            [Api (CSubscribe "k" 0 true); Api (CSetWithTimeout "j" (VInt 1) 3);
             Api (CDelete "k"); Tick 3; Fire 0]) as H1
    by (repeat constructor).
  assert (run [Api (CSubscribe "k" 0 true);
               Api (CSetWithTimeout "j" (VInt 1) 3);
               Api (CDelete "k"); Tick 3; Fire 0] boot
          = Some (default boot
              (run [Api (CSubscribe "k" 0 true);
                    Api (CSetWithTimeout "j" (VInt 1) 3);
                    Api (CDelete "k"); Tick 3; Fire 0] boot))) as H2
    by (vm_compute; reflexivity).
  split_and!; [done..|].
  apply (never_set_not_found "k" _ _ H1 H2).
Defined.

(** ** When a plain [Set] faults, and what it sends when it does not *)

Lemma iface_ne_None x y :
  iface_ne x y = None ↔
  ∃ t, dynType x = Some t ∧ dynType y = Some t ∧ comparable t = false.
Proof.
  unfold iface_ne, iface_eq.
  destruct (decide (dynType x = dynType y)) as [e|n]; simpl.
  - destruct (dynType x) as [t|] eqn:Hx; simpl.
    + destruct (comparable t) eqn:Hc; simpl.
      * split; [done|]. intros (t' & [= <-] & _ & ?). congruence.
      * split; [|done]. intros _. exists t. by rewrite <- e.
    + split; [done|]. by intros (t' & ? & _).
  - split; [done|]. intros (t & Hx & Hy & _). congruence.
Qed.

Lemma notifyLoop_faults subs value exists_ oldValue w :
  faults (forRange subs (notifyBody value exists_ oldValue) w) = true ↔
  exists_ = true ∧ iface_ne oldValue value = None
  ∧ ∃ sub, sub ∈ subs ∧ ConditionalNotifications sub = true.
Proof.
  destruct (decide (exists_ = true → is_Some (iface_ne oldValue value)))
    as [Hok|Hbad].
  - assert (∃ differs, exists_ = true → iface_ne oldValue value = Some differs)
      as [differs Hd].
    { destruct exists_; [|by exists true].
      destruct (Hok eq_refl) as [b Hb]. by exists b. }
    rewrite (notifyLoop_ok _ _ _ _ differs) by done. simpl.
    split; [done|]. intros (-> & Hn & _). rewrite Hd in Hn; done.
  - assert (exists_ = true ∧ iface_ne oldValue value = None) as [-> Hn].
    { destruct exists_; [|by destruct Hbad].
      split; [done|]. destruct (iface_ne oldValue value) eqn:E; [|done].
      destruct Hbad. eauto. }
    clear Hbad. revert w.
    induction subs as [|sub subs IH]; intros w; simpl.
    + split; [done|]. intros (_ & _ & sub & Hin & _).
      by apply elem_of_nil in Hin.
    + rewrite run_bind.
      destruct (ConditionalNotifications sub) eqn:Hc.
      * assert (notifyBody value true oldValue sub w = Panic w) as ->.
        { unfold notifyBody. rewrite run_bind, Hc. simpl.
          unfold ifaceNe. by rewrite Hn. }
        simpl. split; [|done]. intros _. split_and!; [done..|].
        exists sub. split; [apply elem_of_cons; by left|done].
      * assert (notifyBody value true oldValue sub w
                = Ok () (addSent w [(Channel sub, value)])) as ->.
        { unfold notifyBody. rewrite run_bind, Hc. done. }
        rewrite IH. split.
        -- intros (_ & _ & sub' & Hin & Hc'). split_and!; [done..|].
           exists sub'. split; [apply elem_of_cons; by right|done].
        -- intros (_ & _ & sub' & Hin & Hc'). split_and!; [done..|].
           exists sub'. split; [|done].
           apply elem_of_cons in Hin as [->|Hin]; [congruence|done].
Qed.

(** X2. If the key holds a value, the new value has the same dynamic type,
    that type is not comparable, and the key has a subscriber with the
    conditional flag on, then [Set] faults. *)
Theorem Set_faults_if key value oldValue t sub w :
  stateMap (ssm w) !! key = Some oldValue →
  dynType oldValue = Some t → dynType value = Some t →
  comparable t = false →
  sub ∈ subscribersOf (ssm w) key → ConditionalNotifications sub = true →
  faults (Set_ key value w) = true.
Proof.
  intros Hold Ho Hv Hc Hin Hcond.
  rewrite Set_unfold. apply notifyLoop_faults. unfold mapIndex.
  rewrite Hold. simpl. split_and!; [done| |eauto].
  apply iface_ne_None. eauto.
Qed.

Lemma Set_faults_if_witness :
  stateMap (ssm sliceStoredOne) !! "k"%string = Some (VSliceInt [1])
  ∧ dynType (VSliceInt [1]) = Some TSliceInt
  ∧ dynType (VSliceInt [2]) = Some TSliceInt
  ∧ comparable TSliceInt = false
  ∧ cond0 ∈ subscribersOf (ssm sliceStoredOne) "k"
  ∧ ConditionalNotifications cond0 = true
  ∧ faults (Set_ "k" (VSliceInt [2]) sliceStoredOne) = true.
Proof.
  assert (stateMap (ssm sliceStoredOne) !! "k"%string = Some (VSliceInt [1]))
    as H1 by reflexivity.
  assert (cond0 ∈ subscribersOf (ssm sliceStoredOne) "k") as H2.
  { change (cond0 ∈ [cond0]). apply elem_of_cons. by left. }
  split_and!; [done..|].
  exact (Set_faults_if "k" (VSliceInt [2]) (VSliceInt [1]) TSliceInt cond0
           sliceStoredOne H1 eq_refl eq_refl eq_refl H2 eq_refl).
Defined.

(** X3. When the key is new, or its old value can be compared with the new
    one, [Set] completes: it stores the value, touches nothing else, and
    sends the value, in registration order, to exactly the subscriptions
    whose flag is off, all of them when the key is new or the value
    changed. *)
Theorem Set_completes key value differs w :
  (∀ oldValue, stateMap (ssm w) !! key = Some oldValue →
               iface_ne oldValue value = Some differs) →
  ∃ w', Set_ key value w = Ok () w'
    ∧ stateMap (ssm w') = <[key := value]> (stateMap (ssm w))
    ∧ timers (ssm w') = timers (ssm w)
    ∧ subscribers (ssm w') = subscribers (ssm w)
    ∧ heap w' = heap w ∧ now w' = now w
    ∧ sent w' = sent w ++ deliveries value
        (List.filter
           (λ sub, negb (ConditionalNotifications sub)
                   || negb (bool_decide (is_Some (stateMap (ssm w) !! key)))
                   || differs)
           (subscribersOf (ssm w) key)).
Proof.
  intros Hcmp. eexists. split.
  - apply (Set_ok _ _ differs). intros [old Hold]. unfold mapIndex.
    rewrite Hold. simpl. by apply Hcmp.
  - simpl. split_and!; try done. do 2 f_equal.
    apply List.filter_ext. intros sub. unfold receives, mapIndex.
    by destruct (stateMap (ssm w) !! key).
Qed.

Lemma Set_completes_witness :
  (∀ oldValue,
     stateMap (ssm timedWorld) !! "k"%string = Some oldValue →
     iface_ne oldValue (VInt 7) = Some false)
  ∧ ∃ w', Set_ "k" (VInt 7) timedWorld = Ok () w'
          ∧ sent w' = sent timedWorld ++ [(1%nat, VInt 7)].
Proof.
  assert (∀ oldValue,
            stateMap (ssm timedWorld) !! "k"%string = Some oldValue →
            iface_ne oldValue (VInt 7) = Some false) as H.
  { intros oldValue Hold. vm_compute in Hold. by injection Hold as <-. }
  split; [exact H|].
  destruct (Set_completes "k" (VInt 7) false timedWorld H)
    as (w' & Hset & _ & _ & _ & _ & _ & Hsent).
  exists w'. split; [done|]. rewrite Hsent. reflexivity.
Defined.

Lemma Set_same_value_twice_witness :
  iface_ne (VString "a") (VString "a") = Some false
  ∧ stateMap (ssm twoSubscribers) !! "k"%string = None
  ∧ ∃ w1 w2, Set_ "k" (VString "a") twoSubscribers = Ok () w1
      ∧ Set_ "k" (VString "a") w1 = Ok () w2
      ∧ sent w2 = [(0%nat, VString "a"); (1%nat, VString "a");
                   (1%nat, VString "a")].
Proof.
  assert (iface_ne (VString "a") (VString "a") = Some false) as H1
    by reflexivity.
  assert (stateMap (ssm twoSubscribers) !! "k"%string = None) as H2
    by reflexivity.
  split_and!; [done..|].
  destruct (Set_same_value_twice "k" (VString "a") twoSubscribers H1 H2)
    as (w1 & w2 & Hs1 & Hs2 & Hsent).
  exists w1, w2. split_and!; [done..|]. rewrite Hsent. reflexivity.
Defined.

Lemma notifyLoop_sublist subs value exists_ oldValue w :
  ∃ subs', sublist subs' subs
    ∧ sent (after (forRange subs (notifyBody value exists_ oldValue) w))
      = sent w ++ deliveries value subs'.
Proof.
  revert w. induction subs as [|sub subs IH]; intros w; simpl.
  - exists []. split; [constructor|]. simpl. by rewrite app_nil_r.
  - rewrite run_bind.
    assert (notifyBody value exists_ oldValue sub w
            = Ok () (addSent w [(Channel sub, value)])
            ∨ notifyBody value exists_ oldValue sub w = Ok () w
            ∨ notifyBody value exists_ oldValue sub w = Panic w)
      as [-> | [-> | ->]].
    { unfold notifyBody. rewrite run_bind.
      destruct (ConditionalNotifications sub); simpl; [|by left].
      destruct exists_; simpl; [|by left].
      unfold ifaceNe. destruct (iface_ne oldValue value) as [[]|]; simpl;
        [by left|right; by left|right; by right]. }
    + destruct (IH (addSent w [(Channel sub, value)])) as (l & Hl & Hs).
      exists (sub :: l). split; [by constructor|].
      rewrite Hs. simpl. by rewrite <- app_assoc.
    + destruct (IH w) as (l & Hl & Hs).
      exists l. split; [by constructor|done].
    + exists []. split; [apply sublist_nil_l|]. simpl. by rewrite app_nil_r.
Qed.

(** X5. Whether it completes or faults, a plain [Set] sends nothing but the new
    value, and only on the channels of subscriptions of its own key, each
    at most once and in registration order. *)
Theorem Set_sends_to_subscribers key value w :
  ∃ subs', sublist subs' (subscribersOf (ssm w) key)
    ∧ sent (after (Set_ key value w)) = sent w ++ deliveries value subs'.
Proof.
  rewrite Set_unfold.
  match goal with
  | |- context [forRange ?subs (notifyBody ?v ?e ?o) ?w0] =>
      destruct (notifyLoop_sublist subs v e o w0) as (l & Hl & Hs)
  end.
  exists l. split; [done|]. by rewrite Hs.
Qed.

(** X6. [GetString] right after [Set]: the string that was set, or not-found
    when the value set is not a string. *)
Theorem GetString_after_Set key value w :
  GetString key (after (Set_ key value w))
  = Ok (match value with
        | VString s => (s, true)
        | _ => (""%string, false)
        end) (after (Set_ key value w)).
Proof.
  destruct (Set_frame key value w) as (Hs & _ & _).
  unfold GetString. rewrite run_bind. unfold getSSM at 1.
  rewrite Hs. simpl. unfold mapIndex. rewrite lookup_insert_eq. simpl.
  by destruct value.
Qed.

(** ** Calls on one key leave the other keys alone *)

(** X7. A call on another key, completed or not, changes neither the value of
    [key] nor its registered timer nor its subscribers. *)
Theorem call_other_key key c w :
  callKey c ≠ key →
  stateMap (ssm (after (call c w))) !! key = stateMap (ssm w) !! key
  ∧ timers (ssm (after (call c w))) !! key = timers (ssm w) !! key
  ∧ subscribersOf (ssm (after (call c w))) key = subscribersOf (ssm w) key
  ∧ result (Get key (after (call c w))) = result (Get key w).
Proof.
  intros Hne.
  assert (stateMap (ssm (after (call c w))) !! key = stateMap (ssm w) !! key
          ∧ timers (ssm (after (call c w))) !! key = timers (ssm w) !! key
          ∧ subscribersOf (ssm (after (call c w))) key
            = subscribersOf (ssm w) key) as (H1 & H2 & H3).
  { destruct c as [k v|k v d|k|k ch cnd]; simpl in *.
    - destruct (Set_frame k v w) as (-> & _). simpl.
      by rewrite lookup_insert_ne.
    - rewrite SetWithTimeout_eq. simpl. by rewrite !lookup_insert_ne.
    - rewrite Delete_eq, expireKey_eq. simpl. by rewrite !lookup_delete_ne.
    - unfold subscribersOf. simpl. by rewrite lookup_insert_ne. }
  split_and!; [done..|].
  unfold Get. rewrite !run_bind. unfold getSSM, mapIndex. rewrite H1.
  by destruct (stateMap (ssm w) !! key).
Qed.

Lemma call_other_key_witness :
  callKey (CDelete "j") ≠ "k"%string
  ∧ result (Get "k" (after (call (CDelete "j") timedWorld)))
    = Some (VInt 7, true).
Proof.
  assert (callKey (CDelete "j") ≠ "k"%string) as H by done.
  split; [exact H|].
  destruct (call_other_key "k" (CDelete "j") timedWorld H)
    as (_ & _ & _ & Hget).
  rewrite Hget. reflexivity.
Defined.

(** ** Subscriptions are not deduplicated *)

Lemma received_app ch v tr1 tr2 :
  received ch v (tr1 ++ tr2) = (received ch v tr1 + received ch v tr2)%nat.
Proof. unfold received. by rewrite List.filter_app, length_app. Qed.

Lemma received_deliveries ch v subs :
  received ch v (deliveries v subs) = subscriptionsOn ch subs.
Proof.
  unfold received, subscriptionsOn.
  induction subs as [|sub subs IH]; simpl; [done|].
  destruct (decide (Channel sub = ch)) as [e|n].
  - rewrite !bool_decide_eq_true_2 by congruence. simpl. by rewrite IH.
  - rewrite !bool_decide_eq_false_2 by congruence. done.
Qed.

Lemma deliveries_snoc v subs sub :
  deliveries v (subs ++ [sub]) = deliveries v subs ++ [(Channel sub, v)].
Proof. unfold deliveries. by rewrite map_app. Qed.

Lemma received_single ch v : received ch v [(ch, v)] = 1%nat.
Proof.
  unfold received. cbn [List.filter].
  by rewrite bool_decide_eq_true_2.
Qed.

(** X8. [Subscribe] appends without looking at what is registered: after one
    more [Subscribe(key, ch, _)], a timed set of [key] delivers the value on
    [ch] once more than the number of subscriptions [ch] already had, the
    new subscription last. *)
Theorem Subscribe_no_dedup key ch conditional value duration w :
  ∃ w1 w2,
    Subscribe key ch conditional w = Ok () w1
    ∧ SetWithTimeout key value duration w1 = Ok () w2
    ∧ sent w2 = sent w ++ deliveries value (subscribersOf (ssm w) key)
                ++ [(ch, value)]
    ∧ received ch value (sent w2)
      = (received ch value (sent w)
         + S (subscriptionsOn ch (subscribersOf (ssm w) key)))%nat.
Proof.
  set (w1 := after (Subscribe key ch conditional w)).
  assert (subscribersOf (ssm w1) key
          = subscribersOf (ssm w) key
            ++ [{| Channel := ch; ConditionalNotifications := conditional |}])
    as Hsubs.
  { unfold w1. unfold subscribersOf at 1. simpl. by rewrite lookup_insert_eq. }
  assert (sent w1 = sent w) as Hsent by done.
  exists w1. eexists. split; [reflexivity|].
  split; [apply SetWithTimeout_eq|]. cbn [sent].
  rewrite Hsubs, Hsent, deliveries_snoc. cbn [Channel].
  split; [done|].
  rewrite !received_app, received_deliveries, received_single. lia.
Qed.

(** ** Deleting *)

Lemma idle_expireKey key w : wf w → idle key (after (expireKey key w)).
Proof.
  intros Hw. rewrite expireKey_eq. simpl. intros id t' Hl Hk Harm.
  simpl in Hl. apply cancel_lookup_Some in Hl as (t & Hl & ->).
  destruct (decide (timers (ssm w) !! key = Some id)) as [e|n].
  - by apply stopped_not_armed in Harm.
  - pose proof (wf_armed _ Hw _ _ Hl Harm) as Hr. congruence.
Qed.

(** X10. A second [Delete] of the same key changes nothing in the store or the
    timers, and notifies the subscribers again. *)
Theorem Delete_twice key w :
  ∃ w1 w2, Delete key w = Ok () w1 ∧ Delete key w1 = Ok () w2
    ∧ ssm w2 = ssm w1 ∧ heap w2 = heap w1 ∧ now w2 = now w1
    ∧ sent w2 = sent w1 ++ deliveries (ExpirationNotification key)
                             (subscribersOf (ssm w) key).
Proof.
  do 2 eexists. rewrite !Delete_eq.
  split; [apply expireKey_eq|]. split; [apply expireKey_eq|]. simpl.
  rewrite lookup_delete_eq. simpl. split_and!; try done.
  by rewrite !delete_delete_eq.
Qed.

(** ** Events that do not modify a key *)

Lemma untimed_exec k e w w' :
  wf w → timers (ssm w) !! k = None → modifies k e = false →
  exec e w = Some w' →
  timers (ssm w') !! k = None
  ∧ stateMap (ssm w') !! k = stateMap (ssm w) !! k.
Proof.
  intros Hw Hnt Hm He. destruct e as [c|d|timer].
  - simpl in He.
    assert (timers (ssm (after (call c w))) !! k = None
            ∧ stateMap (ssm (after (call c w))) !! k
              = stateMap (ssm w) !! k) as Hc.
    { destruct c as [key v|key v d|key|key ch cnd]; simpl in *.
      - apply bool_decide_eq_false in Hm.
        destruct (Set_frame key v w) as (-> & _). simpl.
        by rewrite lookup_insert_ne.
      - apply bool_decide_eq_false in Hm.
        rewrite SetWithTimeout_eq. simpl. by rewrite !lookup_insert_ne.
      - apply bool_decide_eq_false in Hm.
        rewrite Delete_eq, expireKey_eq. simpl.
        by rewrite !lookup_delete_ne.
      - done. }
    destruct (call c w); by simplify_eq.
  - simpl in He. unfold tick in He. case_bool_decide; by simplify_eq.
  - apply exec_Fire_Some in He as (t & Ht & Harm & _ & He).
    pose proof (wf_armed _ Hw _ _ Ht Harm) as Hreg.
    assert (t_key t ≠ k) as Hne
      by (intros Heq; rewrite Heq in Hreg; congruence).
    rewrite expireKey_eq in He. injection He as <-. simpl.
    by rewrite !lookup_delete_ne.
Qed.

(** * When the callback of a timer has to wait for the mutex *)

(** ** The steps *)

Lemma SetWithTimeout_halves key value duration w :
  SetWithTimeout key value duration w
  = (SetWithTimeout_store key value ;; SetWithTimeout_arm key duration) w.
Proof. reflexivity. Qed.

Lemma expire_Some timer rw rw' :
  expire timer rw = Some rw' →
  ∃ t, heap (base rw) !! timer = Some t ∧ t_status t = Armed
       ∧ t_deadline t ≤ now (base rw)
       ∧ rw' = {| base := {| ssm := ssm (base rw);
                             heap := <[timer := fired t]> (heap (base rw));
                             now := now (base rw);
                             sent := sent (base rw) |};
                  queue := {[timer]} ∪ queue rw |}.
Proof.
  unfold expire. destruct (heap (base rw) !! timer) as [t|]; [|done].
  unfold due. case_bool_decide; [|done]. case_bool_decide; [|done]. simpl.
  intros [= <-]. eauto 10.
Qed.

Lemma callback_Some timer rw rw' :
  callback timer rw = Some rw' →
  timer ∈ queue rw
  ∧ ∃ t, heap (base rw) !! timer = Some t
         ∧ rw' = {| base := after (expireKey (t_key t) (base rw));
                    queue := queue rw ∖ {[timer]} |}.
Proof.
  unfold callback. destruct (decide (timer ∈ queue rw)) as [Hin|]; [|done].
  destruct (heap (base rw) !! timer) as [t|]; [|done].
  rewrite expireKey_eq. intros [= <-]. split; [done|]. exists t.
  by rewrite expireKey_eq.
Qed.

Lemma rexec_RApi c rw rw' :
  rexec (RApi c) rw = Some rw' →
  exec (Api c) (base rw) = Some (base rw') ∧ queue rw' = queue rw.
Proof.
  simpl. unfold locked. destruct (call c (base rw)) as [[] w'|]; [|done].
  by intros [= <-].
Qed.

Lemma rexec_RTick d rw rw' :
  rexec (RTick d) rw = Some rw' →
  exec (Tick d) (base rw) = Some (base rw') ∧ queue rw' = queue rw.
Proof.
  simpl. destruct (tick d (base rw)) as [w'|]; [|done]. by intros [= <-].
Qed.

(** The firing of [fire] is an expiry directly followed by the callback. *)
Lemma fire_expire_callback timer rw :
  timer ∉ queue rw →
  (rw1 ← expire timer rw; callback timer rw1)
  = (λ w', {| base := w'; queue := queue rw |})
      <$> exec (Fire timer) (base rw).
Proof.
  intros Hnin. simpl. unfold expire, fire.
  destruct (heap (base rw) !! timer) as [t|] eqn:Ht; [|done].
  destruct (due t (base rw)); [|done]. simpl.
  unfold callback. simpl.
  rewrite decide_True by set_solver.
  rewrite list_lookup_insert_eq by (by eapply lookup_lt_Some). simpl.
  rewrite !expireKey_eq. simpl. do 2 f_equal. set_solver.
Qed.

Lemma now_exec e w w' : exec e w = Some w' → now w ≤ now w'.
Proof.
  destruct e as [c|d|timer]; simpl.
  - intros He.
    assert (now (after (call c w)) = now w) as Hn.
    { destruct c as [k v|k v d|k|k ch cnd]; simpl.
      - by destruct (Set_frame k v w) as (_ & _ & ->).
      - by rewrite SetWithTimeout_eq.
      - by rewrite Delete_eq, expireKey_eq.
      - done. }
    destruct (call c w); simplify_eq; simpl in *; lia.
  - unfold tick. case_bool_decide; [|done]. intros [= <-]. simpl. lia.
  - intros He.
    change (exec (Fire timer) w = Some w') in He.
    apply exec_Fire_Some in He as (t & _ & _ & _ & He).
    rewrite expireKey_eq in He. injection He as <-. simpl. lia.
Qed.

Lemma wf_rexec e rw rw' :
  rexec e rw = Some rw' → wf (base rw) → wf (base rw').
Proof.
  intros He Hw. destruct e as [c|d|timer|timer].
  - apply rexec_RApi in He as [He _]. by eapply wf_exec.
  - apply rexec_RTick in He as [He _]. by eapply wf_exec.
  - apply expire_Some in He as (t & Ht & _ & _ & ->). by apply wf_fired.
  - apply callback_Some in He as (_ & t & _ & ->). by apply wf_expireKey.
Qed.

Lemma heap_le_rexec e rw rw' :
  rexec e rw = Some rw' → heap_le (heap (base rw)) (heap (base rw')).
Proof.
  intros He. destruct e as [c|d|timer|timer].
  - apply rexec_RApi in He as [He _]. by eapply heap_le_exec.
  - apply rexec_RTick in He as [He _]. by eapply heap_le_exec.
  - apply expire_Some in He as (t & Ht & _ & _ & ->). by apply heap_le_fired.
  - apply callback_Some in He as (_ & t & _ & ->).
    rewrite expireKey_eq. apply heap_le_cancel.
Qed.

Lemma now_rexec e rw rw' :
  rexec e rw = Some rw' → now (base rw) ≤ now (base rw').
Proof.
  intros He. destruct e as [c|d|timer|timer].
  - apply rexec_RApi in He as [He _]. by eapply now_exec.
  - apply rexec_RTick in He as [He _]. by eapply now_exec.
  - apply expire_Some in He as (t & _ & _ & _ & ->). simpl. lia.
  - apply callback_Some in He as (_ & t & _ & ->).
    rewrite expireKey_eq. simpl. lia.
Qed.

Lemma now_rrun evs rw rw' :
  rrun evs rw = Some rw' → now (base rw) ≤ now (base rw').
Proof.
  revert rw. induction evs as [|e evs IH]; intros rw; simpl.
  - intros [= <-]. lia.
  - destruct (rexec e rw) as [rw1|] eqn:He; [|done]. intros Hr.
    pose proof (now_rexec _ _ _ He). pose proof (IH _ Hr). lia.
Qed.

Lemma wf_rrun evs rw rw' :
  rrun evs rw = Some rw' → wf (base rw) → wf (base rw').
Proof.
  revert rw. induction evs as [|e evs IH]; intros rw; simpl.
  - by intros [= <-].
  - destruct (rexec e rw) as [rw1|] eqn:He; [|done].
    intros Hr Hw. eapply IH; [done|]. by eapply wf_rexec.
Qed.

Lemma quiet_later key rw rw' :
  quiet key rw → heap_le (heap (base rw)) (heap (base rw')) →
  queue rw' ⊆ queue rw → quiet key rw'.
Proof.
  intros Hq Hle Hsub id Hin.
  destruct (Hq id (Hsub _ Hin)) as (t & Ht & Hk).
  destruct (Hle _ _ Ht) as (t' & Ht' & Hk' & _).
  exists t'. split; [done|congruence].
Qed.

(** ** Events that do not concern a key *)

Lemma rexec_other key e rw rw' :
  wf (base rw) → quiet key rw →
  rexec e rw = Some rw' → rinterferes key e = false →
  (∀ timer t, e = RExpire timer → heap (base rw) !! timer = Some t →
              t_status t = Armed → t_key t ≠ key) →
  unaffected key (base rw) (base rw') ∧ quiet key rw'.
Proof.
  intros Hw Hq He Hi Hf. destruct e as [c|d|timer|timer].
  - pose proof (heap_le_rexec _ _ _ He) as Hle.
    apply rexec_RApi in He as [He Hqe]. split.
    + eapply exec_other; [done..|]. by intros.
    + eapply quiet_later; [done..|]. by rewrite Hqe.
  - pose proof (heap_le_rexec _ _ _ He) as Hle.
    apply rexec_RTick in He as [He Hqe]. split.
    + eapply exec_other; [done..|]. by intros.
    + eapply quiet_later; [done..|]. by rewrite Hqe.
  - apply expire_Some in He as (t & Ht & Harm & _ & ->).
    pose proof (Hf timer t eq_refl Ht Harm) as Hne. split.
    + by apply unaffected_fired.
    + intros id Hin. simpl in *.
      apply elem_of_union in Hin as [->%elem_of_singleton | Hin].
      * exists (fired t). split; [|done].
        apply list_lookup_insert_eq. by eapply lookup_lt_Some.
      * destruct (Hq id Hin) as (t0 & Ht0 & Hk0).
        destruct (heap_le_fired timer t _ Ht _ _ Ht0) as (t' & Ht' & Hk' & _).
        exists t'. split; [done|congruence].
  - apply callback_Some in He as (Hin & t & Ht & ->).
    destruct (Hq _ Hin) as (t0 & Ht0 & Hne).
    assert (t0 = t) as -> by congruence. split.
    + by apply unaffected_expireKey.
    + eapply quiet_later; [done| |]; simpl.
      * rewrite expireKey_eq. apply heap_le_cancel.
      * set_solver.
Qed.

Lemma rpending_other key timer deadline subs e rw rw' :
  pending key timer deadline subs (base rw) → quiet key rw →
  rexec e rw = Some rw' → rinterferes key e = false → e ≠ RExpire timer →
  pending key timer deadline subs (base rw') ∧ quiet key rw'
  ∧ unaffected key (base rw) (base rw').
Proof.
  intros [Hw Hreg Ht Hsubs] Hq He Hi Hne.
  destruct (rexec_other key e rw rw' Hw Hq He Hi) as [Hun Hq'].
  { intros id t -> Hl Harm Hk.
    pose proof (wf_armed _ Hw _ _ Hl Harm) as Hr. congruence. }
  split_and!; [|done..]. split.
  - by eapply wf_rexec.
  - by rewrite (un_timers _ _ _ Hun).
  - by apply (un_heap _ _ _ Hun).
  - by rewrite (un_subs _ _ _ Hun).
Qed.

(** While the timer of [key] is pending and no callback for [key] is
    waiting, events that do not interfere with [key] leave everything about
    [key] as it is, until the timer goes off, which it does not do before
    its deadline. *)
Lemma rpending_run key timer deadline subs evs rw rw' :
  pending key timer deadline subs (base rw) → quiet key rw →
  Forall (λ e, rinterferes key e = false) evs → rrun evs rw = Some rw' →
  ((RExpire timer ∉ evs) ∧ pending key timer deadline subs (base rw')
   ∧ quiet key rw' ∧ unaffected key (base rw) (base rw'))
  ∨ (RExpire timer ∈ evs ∧ deadline ≤ now (base rw')).
Proof.
  revert rw. induction evs as [|e evs IH]; intros rw Hp Hq Hall; simpl.
  - intros [= <-]. left.
    split_and!; [by apply not_elem_of_nil|done..|apply unaffected_refl].
  - apply Forall_cons in Hall as [Hi Hall].
    destruct (rexec e rw) as [rw1|] eqn:He; [|done]. intros Hr.
    destruct (decide (e = RExpire timer)) as [->|Hne].
    + right. split; [apply elem_of_cons; by left|].
      apply expire_Some in He as (t & Ht & _ & Hdl & ->).
      rewrite (pend_timer _ _ _ _ _ Hp) in Ht. injection Ht as <-.
      pose proof (now_rrun _ _ _ Hr) as Hn. simpl in *. lia.
    + destruct (rpending_other _ _ _ _ _ _ _ Hp Hq He Hi Hne)
        as (Hp1 & Hq1 & Hun1).
      destruct (IH rw1 Hp1 Hq1 Hall Hr)
        as [(Hnin & Hp' & Hq' & Hun) | (Hin & Hdl)].
      * left. split_and!; [|done|done|by eapply unaffected_trans].
        intros [?|?]%elem_of_cons; congruence.
      * right. split; [apply elem_of_cons; by right|done].
Qed.

(** A callback that is waiting stays waiting until it runs, whatever else
    happens; and when it runs, the key of its timer holds no value
    afterwards. *)
Lemma waiting_callback_runs timer t evs rw rw' :
  timer ∈ queue rw → heap (base rw) !! timer = Some t →
  rrun evs rw = Some rw' → RCallback timer ∉ evs →
  ∃ rw'', rexec (RCallback timer) rw' = Some rw''
          ∧ Get (t_key t) (base rw'') = Ok (VNil, false) (base rw'').
Proof.
  revert rw t. induction evs as [|e evs IH]; intros rw t Hin Ht; simpl.
  - intros [= <-] _. unfold callback. rewrite decide_True by done.
    rewrite Ht, expireKey_eq. eexists. split; [done|].
    unfold Get. rewrite run_bind. unfold getSSM, mapIndex. simpl.
    by rewrite lookup_delete_eq.
  - destruct (rexec e rw) as [rw1|] eqn:He; [|done]. intros Hr Hnin.
    apply not_elem_of_cons in Hnin as [Hne Hnin].
    destruct (heap_le_rexec _ _ _ He _ _ Ht) as (t1 & Ht1 & Hk1 & _).
    assert (timer ∈ queue rw1) as Hin1.
    { destruct e as [c|d|id|id].
      - apply rexec_RApi in He as [_ ->]. done.
      - apply rexec_RTick in He as [_ ->]. done.
      - apply expire_Some in He as (? & _ & _ & _ & ->). simpl. set_solver.
      - apply callback_Some in He as (_ & ? & _ & ->). simpl.
        assert (timer ≠ id) by congruence. set_solver. }
    destruct (IH rw1 t1 Hin1 Ht1 Hr Hnin) as (rw'' & Hcb & Hget).
    exists rw''. by rewrite <- Hk1.
Qed.

(** ** A timed value until its deadline *)

(** X12. After [SetWithTimeout] made while no callback for the key is
    waiting for the mutex, as long as the key is left alone and the
    duration has not elapsed since the timer was made, [Get] returns the
    value that was set: ticks, calls on other keys, and the expiry and the
    callbacks of other keys' timers do not remove it. *)
Theorem timed_value_before_deadline key value duration rw w1 evs rw2 :
  wf (base rw) → quiet key rw →
  SetWithTimeout key value duration (base rw) = Ok () w1 →
  Forall (λ e, rinterferes key e = false) evs →
  rrun evs {| base := w1; queue := queue rw |} = Some rw2 →
  now (base rw2) < now (base rw) + duration →
  Get key (base rw2) = Ok (value, true) (base rw2).
Proof.
  intros Hw Hq Hset Hall Hr Hearly.
  pose proof (pending_SetWithTimeout key value duration _ Hw) as Hp.
  pose proof (heap_le_call (CSetWithTimeout key value duration) (base rw))
    as Hle. simpl in Hle.
  rewrite Hset in Hp, Hle. simpl in Hp, Hle.
  assert (quiet key {| base := w1; queue := queue rw |}) as Hq1
    by (eapply quiet_later; [done..|done]).
  destruct (rpending_run key _ _ _ evs {| base := w1; queue := queue rw |}
              rw2 Hp Hq1 Hall Hr)
    as [(_ & _ & _ & Hun) | (_ & Hdl)]; [|lia].
  unfold Get. rewrite run_bind. unfold getSSM, mapIndex.
  rewrite (un_value _ _ _ Hun). simpl.
  rewrite SetWithTimeout_eq in Hset. injection Hset as <-. simpl.
  by rewrite lookup_insert_eq.
Qed.

(** X13. A plain [Set] on a key whose timer is pending (and for which no
    callback is waiting): as long as the key is then left alone and the
    timer has not gone off, the timer stays pending at its old deadline and
    [Get] returns the new value; once the deadline has come the timer can
    go off, and whenever its callback then runs, whatever was called in
    between, the key holds no value afterwards. *)
Theorem plain_Set_still_expires key value timer deadline subs rw w1 evs rw2 :
  pending key timer deadline subs (base rw) → quiet key rw →
  Set_ key value (base rw) = Ok () w1 →
  Forall (λ e, rinterferes key e = false) evs →
  rrun evs {| base := w1; queue := queue rw |} = Some rw2 →
  RExpire timer ∉ evs →
  pending key timer deadline subs (base rw2)
  ∧ Get key (base rw2) = Ok (value, true) (base rw2)
  ∧ (deadline ≤ now (base rw2) →
     ∃ rw3, rexec (RExpire timer) rw2 = Some rw3
       ∧ ∀ evs' rw4, rrun evs' rw3 = Some rw4 → RCallback timer ∉ evs' →
           ∃ rw5, rexec (RCallback timer) rw4 = Some rw5
                  ∧ Get key (base rw5) = Ok (VNil, false) (base rw5)).
Proof.
  intros [Hw Hreg Ht Hsubs] Hq Hset Hall Hr Hnin.
  pose proof (wf_Set key value _ Hw) as Hw1.
  destruct (Set_frame key value (base rw)) as (Hs & Hh & Hn).
  rewrite Hset in Hw1, Hs, Hh, Hn. simpl in *.
  assert (pending key timer deadline subs w1) as Hp.
  { split; [done|by rewrite Hs|by rewrite Hh|].
    unfold subscribersOf in *. by rewrite Hs. }
  assert (quiet key {| base := w1; queue := queue rw |}) as Hq1.
  { eapply quiet_later; [done| |done]. simpl. rewrite Hh.
    apply heap_le_refl. }
  destruct (rpending_run key _ _ _ evs {| base := w1; queue := queue rw |}
              rw2 Hp Hq1 Hall Hr)
    as [(_ & Hp2 & Hq2 & Hun) | (Hin & _)]; [|done].
  split; [done|]. split.
  - unfold Get. rewrite run_bind. unfold getSSM, mapIndex.
    rewrite (un_value _ _ _ Hun). simpl. rewrite Hs. simpl.
    by rewrite lookup_insert_eq.
  - intros Hdl.
    assert (∃ rw3, rexec (RExpire timer) rw2 = Some rw3) as [rw3 He].
    { simpl. unfold expire, due. rewrite (pend_timer _ _ _ _ _ Hp2). simpl.
      rewrite (bool_decide_eq_true_2 (deadline ≤ now (base rw2))) by done.
      simpl. eauto. }
    exists rw3. split; [done|]. intros evs' rw4 Hr' Hnin'.
    apply expire_Some in He as (t & Ht2 & _ & _ & ->).
    rewrite (pend_timer _ _ _ _ _ Hp2) in Ht2. injection Ht2 as <-.
    eapply (waiting_callback_runs timer
              (fired {| t_key := key; t_deadline := deadline;
                        t_status := Armed |})); [| |done|done]; simpl.
    + set_solver.
    + apply list_lookup_insert_eq.
      eapply lookup_lt_Some, (pend_timer _ _ _ _ _ Hp2).
Qed.

(** ** After a [Delete] *)

Lemma ridle_other key e rw rw' :
  wf (base rw) → idle key (base rw) → quiet key rw →
  rexec e rw = Some rw' → rinterferes key e = false →
  idle key (base rw') ∧ quiet key rw' ∧ unaffected key (base rw) (base rw').
Proof.
  intros Hw Hidle Hq He Hi.
  destruct (rexec_other key e rw rw' Hw Hq He Hi) as [Hun Hq'].
  { intros id t -> Hl Harm Hk. by eapply Hidle. }
  split_and!; [|done..]. intros id t' Hl Hk Harm.
  destruct (heap (base rw) !! id) as [t|] eqn:Hold.
  - destruct (un_le _ _ _ Hun _ _ Hold) as (t2 & Ht2 & _ & _ & Ha).
    assert (t2 = t') as -> by congruence.
    pose proof (Ha Harm) as ->. by eapply Hidle.
  - by eapply (un_new _ _ _ Hun).
Qed.

Lemma ridle_run key evs rw rw' :
  wf (base rw) → idle key (base rw) → quiet key rw →
  Forall (λ e, rinterferes key e = false) evs → rrun evs rw = Some rw' →
  unaffected key (base rw) (base rw').
Proof.
  revert rw. induction evs as [|e evs IH]; intros rw Hw Hidle Hq Hall; simpl.
  - intros [= <-]. apply unaffected_refl.
  - apply Forall_cons in Hall as [Hi Hall].
    destruct (rexec e rw) as [rw1|] eqn:He; [|done]. intros Hr.
    destruct (ridle_other _ _ _ _ Hw Hidle Hq He Hi) as (Hidle1 & Hq1 & Hun1).
    eapply unaffected_trans; [done|].
    apply IH; [by eapply wf_rexec|done..].
Qed.

(** A timer that is neither pending nor waiting for the mutex is done for
    good. *)
Lemma done_timer_stays_done timer t evs rw rw' :
  heap (base rw) !! timer = Some t → t_status t ≠ Armed →
  timer ∉ queue rw → rrun evs rw = Some rw' →
  rexec (RExpire timer) rw' = None ∧ rexec (RCallback timer) rw' = None.
Proof.
  revert rw t. induction evs as [|e evs IH]; intros rw t Ht Hst Hnin; simpl.
  - intros [= <-]. unfold expire, callback, due. rewrite Ht.
    rewrite bool_decide_eq_false_2 by done. simpl.
    by rewrite decide_False.
  - destruct (rexec e rw) as [rw1|] eqn:He; [|done]. intros Hr.
    destruct (heap_le_rexec _ _ _ He _ _ Ht) as (t1 & Ht1 & _ & _ & Ha).
    assert (t_status t1 ≠ Armed) as Hst1
      by (intros Harm; apply Hst; by rewrite <- (Ha Harm)).
    assert (timer ∉ queue rw1) as Hnin1.
    { destruct e as [c|d|id|id].
      - apply rexec_RApi in He as [_ ->]. done.
      - apply rexec_RTick in He as [_ ->]. done.
      - apply expire_Some in He as (t0 & Ht0 & Harm0 & _ & ->). simpl.
        assert (timer ≠ id) by (intros ->; congruence). set_solver.
      - apply callback_Some in He as (_ & ? & _ & ->). simpl. set_solver. }
    by eapply IH.
Qed.

(** X9. [Delete] made while no callback for the key is waiting for the
    mutex really cancels the expiry: after it, as long as the key is left
    alone, no expiration notification for the key is sent any more; and
    the timer that was registered for the key never goes off and its
    callback never runs, whatever is called next. *)
Theorem Delete_cancels_expiry key rw w1 :
  wf (base rw) → quiet key rw → Delete key (base rw) = Ok () w1 →
  (∀ evs rw2, Forall (λ e, rinterferes key e = false) evs →
     rrun evs {| base := w1; queue := queue rw |} = Some rw2 →
     ∃ tr, sent (base rw2) = sent w1 ++ tr ∧ expirations key tr = [])
  ∧ (∀ timer evs rw2, timers (ssm (base rw)) !! key = Some timer →
       rrun evs {| base := w1; queue := queue rw |} = Some rw2 →
       rexec (RExpire timer) rw2 = None
       ∧ rexec (RCallback timer) rw2 = None).
Proof.
  intros Hw Hq Hdel. rewrite Delete_eq in Hdel.
  pose proof (wf_expireKey key _ Hw) as Hw1.
  pose proof (idle_expireKey key _ Hw) as Hidle.
  assert (heap w1 = cancel (timers (ssm (base rw)) !! key) (heap (base rw)))
    as Hh by (rewrite expireKey_eq in Hdel; by injection Hdel as <-).
  rewrite Hdel in Hw1, Hidle. simpl in Hw1, Hidle.
  assert (quiet key {| base := w1; queue := queue rw |}) as Hq1.
  { eapply quiet_later; [done| |done]. simpl. rewrite Hh.
    apply heap_le_cancel. }
  split.
  - intros evs rw2 Hall Hr.
    apply (un_sent _ _ _
             (ridle_run key evs {| base := w1; queue := queue rw |} rw2
                        Hw1 Hidle Hq1 Hall Hr)).
  - intros timer evs rw2 Hreg Hr.
    destruct (wf_timer _ Hw _ _ Hreg) as (t & Ht & Hk).
    eapply (done_timer_stays_done timer (stopped t) evs
              {| base := w1; queue := queue rw |});
      [|apply stopped_not_armed| |done]; simpl.
    + rewrite Hh. apply cancel_lookup_Some. exists t. split; [done|].
      by rewrite decide_True.
    + intros Hin. destruct (Hq _ Hin) as (t0 & Ht0 & Hne). congruence.
Qed.

(** ** A value without a timer *)

Lemma runtimed_step k e rw rw' :
  wf (base rw) → quiet k rw → timers (ssm (base rw)) !! k = None →
  rmodifies k e = false → rexec e rw = Some rw' →
  quiet k rw' ∧ timers (ssm (base rw')) !! k = None
  ∧ stateMap (ssm (base rw')) !! k = stateMap (ssm (base rw)) !! k.
Proof.
  intros Hw Hq Hnt Hm He.
  pose proof (heap_le_rexec _ _ _ He) as Hle.
  destruct e as [c|d|timer|timer].
  - apply rexec_RApi in He as [He Hqe].
    destruct (untimed_exec k (Api c) _ _ Hw Hnt Hm He) as [? ?].
    split_and!; [|done..]. eapply quiet_later; [done..|]. by rewrite Hqe.
  - apply rexec_RTick in He as [He Hqe].
    destruct (untimed_exec k (Tick d) _ _ Hw Hnt eq_refl He) as [? ?].
    split_and!; [|done..]. eapply quiet_later; [done..|]. by rewrite Hqe.
  - apply expire_Some in He as (t & Ht & Harm & _ & ->). simpl.
    split_and!; [|done..]. intros id Hin. simpl in *.
    apply elem_of_union in Hin as [->%elem_of_singleton | Hin].
    + exists (fired t). split.
      * apply list_lookup_insert_eq. by eapply lookup_lt_Some.
      * simpl. intros Hk. pose proof (wf_armed _ Hw _ _ Ht Harm) as Hr.
        congruence.
    + destruct (Hq id Hin) as (t0 & Ht0 & Hk0).
      destruct (Hle _ _ Ht0) as (t' & Ht' & Hk' & _).
      exists t'. split; [done|congruence].
  - apply callback_Some in He as (Hin & t & Ht & ->).
    destruct (Hq _ Hin) as (t0 & Ht0 & Hne).
    assert (t0 = t) as -> by congruence.
    split_and!.
    + eapply quiet_later; [done..|]. simpl. set_solver.
    + rewrite expireKey_eq. simpl. by rewrite lookup_delete_ne.
    + rewrite expireKey_eq. simpl. by rewrite lookup_delete_ne.
Qed.

(** X14. A value whose key has no timer registered and no callback waiting
    stays as it is until [Set], [SetWithTimeout] or [Delete] is called on
    that key: subscriptions, the passing of time, calls on other keys, and
    the expiry and the callbacks of other keys' timers do not remove or
    change it. *)
Theorem untimed_value_persists k v evs rw rw' :
  wf (base rw) → quiet k rw →
  timers (ssm (base rw)) !! k = None →
  stateMap (ssm (base rw)) !! k = Some v →
  Forall (λ e, rmodifies k e = false) evs →
  rrun evs rw = Some rw' →
  Get k (base rw') = Ok (v, true) (base rw').
Proof.
  intros Hw Hq Hnt Hv Hall Hr.
  assert (stateMap (ssm (base rw')) !! k = Some v) as Hv'.
  { revert rw Hw Hq Hnt Hv Hr.
    induction evs as [|e evs IH]; intros rw Hw Hq Hnt Hv; simpl.
    - by intros [= <-].
    - apply Forall_cons in Hall as [Hm Hall].
      destruct (rexec e rw) as [rw1|] eqn:He; [|done].
      destruct (runtimed_step _ _ _ _ Hw Hq Hnt Hm He) as (Hq1 & Hnt1 & Hv1).
      apply IH; [done|by eapply wf_rexec|done|done|congruence]. }
  unfold Get. rewrite run_bind. unfold getSSM, mapIndex. by rewrite Hv'.
Qed.

(** ** What the timer map holds *)

Lemma tracked_expireKey key w q :
  wf w → tracked_except key {| base := w; queue := q |} →
  all_tracked {| base := after (expireKey key w); queue := q |}.
Proof.
  intros Hw Htr k id Hl. simpl in *. rewrite expireKey_eq in Hl |- *.
  simpl in *. apply lookup_delete_Some in Hl as [Hne Hl].
  destruct (Htr _ _ (not_eq_sym Hne) Hl) as (t & Ht & Hk & Hst).
  exists t. split; [|done]. by eapply cancel_other.
Qed.

Lemma tracked_SetWithTimeout key value duration w q :
  wf w → tracked_except key {| base := w; queue := q |} →
  all_tracked {| base := after (SetWithTimeout key value duration w);
                 queue := q |}.
Proof.
  intros Hw Htr k id Hl. simpl in *. rewrite SetWithTimeout_eq in Hl |- *.
  simpl in *. destruct (decide (key = k)) as [->|Hne].
  - rewrite lookup_insert_eq in Hl. injection Hl as <-.
    eexists. split.
    + apply lookup_snoc_Some. right.
      split; [by rewrite length_cancel|reflexivity].
    + split; [done|]. by left.
  - rewrite lookup_insert_ne in Hl by done.
    destruct (Htr _ _ (not_eq_sym Hne) Hl) as (t & Ht & Hk & Hst).
    exists t. split; [|done].
    apply lookup_app_l_Some. by eapply cancel_other.
Qed.

Lemma all_tracked_rexec e rw rw' :
  wf (base rw) → all_tracked rw → rexec e rw = Some rw' → all_tracked rw'.
Proof.
  intros Hw Htr He.
  assert (∀ key, tracked_except key {| base := base rw; queue := queue rw |})
    as Hex by (intros key k id _; apply Htr).
  destruct e as [c|d|timer|timer].
  - simpl in He. unfold locked in He.
    assert (all_tracked {| base := after (call c (base rw));
                           queue := queue rw |}) as Hc.
    { destruct c as [key v|key v d|key|key ch cnd]; simpl.
      - destruct (Set_frame key v (base rw)) as (Hs & Hh & _).
        intros k id. simpl. rewrite Hs, Hh. simpl. apply Htr.
      - by apply tracked_SetWithTimeout.
      - rewrite Delete_eq. by apply tracked_expireKey.
      - done. }
    destruct (call c (base rw)) as [[] w'|]; by simplify_eq.
  - simpl in He. unfold tick in He. case_bool_decide; by simplify_eq.
  - apply expire_Some in He as (t & Ht & Harm & _ & ->).
    intros k id Hl. simpl in *.
    destruct (Htr _ _ Hl) as (t0 & Ht0 & Hk0 & Hst0).
    destruct (decide (timer = id)) as [->|Hne].
    + exists (fired t). split.
      * apply list_lookup_insert_eq. by eapply lookup_lt_Some.
      * split; [simpl; congruence|]. right. split; [done|]. set_solver.
    + exists t0. split; [by rewrite list_lookup_insert_ne|].
      split; [done|]. destruct Hst0 as [?|[? ?]]; [by left|].
      right. split; [done|]. set_solver.
  - apply callback_Some in He as (Hin & t & Ht & ->).
    apply tracked_expireKey; [done|].
    intros k id Hne Hl. simpl in *.
    destruct (Htr _ _ Hl) as (t0 & Ht0 & Hk0 & Hst0).
    exists t0. split; [done|]. split; [done|].
    destruct Hst0 as [?|[? ?]]; [by left|].
    right. split; [done|].
    assert (id ≠ timer) by (intros ->; congruence). set_solver.
Qed.

(** X11. In every world reached from a new manager, callbacks waiting for
    the mutex included: a timer registered under a key was made for that
    key, the key holds a value, and the timer is either pending or has gone
    off with its callback still waiting; every pending timer is the one
    registered under its key; hence no key has two pending timers. *)
Theorem timer_map_invariant evs rw :
  rrun evs rboot = Some rw →
  (∀ (k : string) (id : nat), timers (ssm (base rw)) !! k = Some id →
     is_Some (stateMap (ssm (base rw)) !! k)
     ∧ ∃ t, heap (base rw) !! id = Some t ∧ t_key t = k
            ∧ (t_status t = Armed ∨ (t_status t = Fired ∧ id ∈ queue rw)))
  ∧ (∀ (id : nat) (t : Timer),
       heap (base rw) !! id = Some t → t_status t = Armed →
       timers (ssm (base rw)) !! t_key t = Some id)
  ∧ (∀ (id1 id2 : nat) (t1 t2 : Timer),
       heap (base rw) !! id1 = Some t1 → heap (base rw) !! id2 = Some t2 →
       t_status t1 = Armed → t_status t2 = Armed → t_key t1 = t_key t2 →
       id1 = id2).
Proof.
  intros Hr.
  pose proof (wf_rrun _ _ _ Hr wf_boot) as Hw.
  assert (all_tracked rw) as Htr.
  { assert (all_tracked rboot) as Hb by (intros k id Hl; by simplify_map_eq).
    assert (wf (base rboot)) as Hwb by apply wf_boot.
    revert Hr Hb Hwb. generalize rboot. clear Hw.
    induction evs as [|e evs IH]; intros rw0; simpl.
    - by intros [= <-].
    - destruct (rexec e rw0) as [rw1|] eqn:He; [|done]. intros Hr Hb Hwb.
      apply (IH rw1); [done|by eapply all_tracked_rexec|by eapply wf_rexec]. }
  split_and!.
  - intros k id Hl. split; [by eapply wf_value|by apply Htr].
  - apply (wf_armed _ Hw).
  - intros id1 id2 t1 t2 H1 H2 Ha1 Ha2 Hk.
    pose proof (wf_armed _ Hw _ _ H1 Ha1) as R1.
    pose proof (wf_armed _ Hw _ _ H2 Ha2) as R2.
    rewrite Hk in R1. congruence.
Qed.

(** ** Re-arming while the first timer goes off *)

(** C5. The second [SetWithTimeout] starts at time 4, before the first
    duration (5) has elapsed, but its sends last until time 6.  When it
    returns, the first timer has gone off and its callback is waiting;
    [timer.Stop()] could not stop it.  The callback then runs: it removes
    the value the second call stored, stops and removes the second timer,
    and sends the expiration notifications at time 6 and not after the
    second duration (10). *)
Theorem rearm_race_first_timer_fires :
  (λ rw, now (base rw)) <$> raceSecondCallBegins = Some 4
  ∧ (λ rw, (result (Get "k" (base rw)),
            timers (ssm (base rw)) !! "k"%string,
            heap (base rw), elements (queue rw)))
      <$> raceSecondCallReturns
    = Some (Some (VInt 8, true), Some 1%nat,
            [{| t_key := "k"; t_deadline := 5; t_status := Fired |};
             {| t_key := "k"; t_deadline := 16; t_status := Armed |}],
            [0%nat])
  ∧ (λ rw, (now (base rw), result (Get "k" (base rw)),
            timers (ssm (base rw)) !! "k"%string,
            heap (base rw), sent (base rw)))
      <$> raceEnd
    = Some (6, Some (VNil, false), None,
            [{| t_key := "k"; t_deadline := 5; t_status := Fired |};
             {| t_key := "k"; t_deadline := 16; t_status := Stopped |}],
            [(0%nat, VInt 7); (1%nat, VInt 7);
             (0%nat, VInt 8); (1%nat, VInt 8);
             (0%nat, ExpirationNotification "k");
             (1%nat, ExpirationNotification "k")]).
Proof. split_and!; vm_compute; reflexivity. Qed.

(** ** The theorems of this part at work on concrete runs *)

Lemma quiet_empty key w : quiet key {| base := w; queue := ∅ |}.
Proof. intros id Hin. simpl in Hin. set_solver. Qed.

Lemma wf_timedWorld : wf timedWorld.
Proof. apply wf_SetWithTimeout, wf_twoSubscribers. Qed.

Lemma timed_value_before_deadline_witness :
  wf (base quietStart) ∧ quiet "k" quietStart
  ∧ SetWithTimeout "k" (VInt 7) 5 (base quietStart) = Ok () timedWorld
  ∧ Forall (λ e, rinterferes "k" e = false)
      [RApi (CSetWithTimeout "j" (VInt 1) 1); RTick 2; RExpire 1; RCallback 1]
  ∧ rrun [RApi (CSetWithTimeout "j" (VInt 1) 1); RTick 2; RExpire 1;
          RCallback 1] {| base := timedWorld; queue := queue quietStart |}
    = Some otherKeyExpired
  ∧ now (base otherKeyExpired) < now (base quietStart) + 5
  ∧ Get "k" (base otherKeyExpired)
    = Ok (VInt 7, true) (base otherKeyExpired).
Proof.
  assert (SetWithTimeout "k" (VInt 7) 5 (base quietStart) = Ok () timedWorld)
    as H1 by reflexivity.
  assert (Forall (λ e, rinterferes "k" e = false)
            [RApi (CSetWithTimeout "j" (VInt 1) 1); RTick 2; RExpire 1;
             RCallback 1]) as H2 by (repeat constructor).
  assert (rrun [RApi (CSetWithTimeout "j" (VInt 1) 1); RTick 2; RExpire 1;
                RCallback 1]
               {| base := timedWorld; queue := queue quietStart |}
          = Some otherKeyExpired) as H3 by (vm_compute; reflexivity).
  assert (now (base otherKeyExpired) < now (base quietStart) + 5) as H4
    by (vm_compute; reflexivity).
  split_and!; [apply wf_twoSubscribers|apply quiet_empty|done..|].
  exact (timed_value_before_deadline "k" (VInt 7) 5 quietStart timedWorld _ _
           wf_twoSubscribers (quiet_empty "k" twoSubscribers) H1 H2 H3 H4).
Defined.

Lemma plain_Set_still_expires_witness :
  pending "k" 0 5 [cond0; plain1] (base quietTimed) ∧ quiet "k" quietTimed
  ∧ Set_ "k" (VInt 9) (base quietTimed) = Ok () (base overwritten)
  ∧ Forall (λ e, rinterferes "k" e = false) [RTick 5]
  ∧ rrun [RTick 5] {| base := base overwritten; queue := queue quietTimed |}
    = Some overwrittenDue
  ∧ (RExpire 0 ∉ [RTick 5])
  ∧ Get "k" (base overwrittenDue) = Ok (VInt 9, true) (base overwrittenDue)
  ∧ ∃ rw3 rw5, rexec (RExpire 0) overwrittenDue = Some rw3
      ∧ rexec (RCallback 0) rw3 = Some rw5
      ∧ Get "k" (base rw5) = Ok (VNil, false) (base rw5).
Proof.
  assert (pending "k" 0 5 [cond0; plain1] (base quietTimed)) as Hp
    by exact (pending_SetWithTimeout "k" (VInt 7) 5 twoSubscribers
                wf_twoSubscribers).
  assert (Set_ "k" (VInt 9) (base quietTimed) = Ok () (base overwritten))
    as Hs by (vm_compute; reflexivity).
  assert (Forall (λ e, rinterferes "k" e = false) [RTick 5]) as Hall
    by (repeat constructor).
  assert (rrun [RTick 5]
               {| base := base overwritten; queue := queue quietTimed |}
          = Some overwrittenDue) as Hr by (vm_compute; reflexivity).
  assert (RExpire 0 ∉ [RTick 5]) as Hnin.
  { intros Hin. apply elem_of_cons in Hin as [Heq|Hin]; [discriminate|].
    by apply elem_of_nil in Hin. }
  destruct (plain_Set_still_expires "k" (VInt 9) 0 5 [cond0; plain1]
              quietTimed (base overwritten) [RTick 5] overwrittenDue
              Hp (quiet_empty "k" timedWorld) Hs Hall Hr Hnin)
    as (_ & Hget & Hfire).
  split_and!; [done|apply quiet_empty|done..|].
  destruct Hfire as (rw3 & He & Hcb); [vm_compute; discriminate|].
  destruct (Hcb [] rw3 eq_refl) as (rw5 & Hc & Hgone);
    [apply not_elem_of_nil|].
  exists rw3, rw5. done.
Defined.

Lemma Delete_cancels_expiry_witness :
  wf (base quietTimed) ∧ quiet "k" quietTimed
  ∧ Delete "k" (base quietTimed) = Ok () (after (Delete "k" timedWorld))
  ∧ timers (ssm (base quietTimed)) !! "k"%string = Some 0%nat
  ∧ rrun [RTick 9] {| base := after (Delete "k" timedWorld);
                      queue := queue quietTimed |} = Some deletedLater
  ∧ rexec (RExpire 0) deletedLater = None
  ∧ rexec (RCallback 0) deletedLater = None.
Proof.
  assert (Delete "k" (base quietTimed) = Ok () (after (Delete "k" timedWorld)))
    as Hd by reflexivity.
  assert (timers (ssm (base quietTimed)) !! "k"%string = Some 0%nat) as Hreg
    by reflexivity.
  assert (rrun [RTick 9] {| base := after (Delete "k" timedWorld);
                            queue := queue quietTimed |} = Some deletedLater)
    as Hr by (vm_compute; reflexivity).
  destruct (Delete_cancels_expiry "k" quietTimed _ wf_timedWorld
              (quiet_empty "k" timedWorld) Hd) as [_ Hnever].
  destruct (Hnever 0%nat [RTick 9] deletedLater Hreg Hr) as [H1 H2].
  split_and!; [apply wf_timedWorld|apply quiet_empty|done..].
Defined.

Lemma untimed_value_persists_witness :
  wf (base quietLater) ∧ quiet "j" quietLater
  ∧ timers (ssm (base quietLater)) !! "j"%string = None
  ∧ stateMap (ssm (base quietLater)) !! "j"%string = Some (VInt 1)
  ∧ Forall (λ e, rmodifies "j" e = false)
      [RExpire 0; RApi (CSubscribe "j" 2 true); RCallback 0; RTick 1]
  ∧ rrun [RExpire 0; RApi (CSubscribe "j" 2 true); RCallback 0; RTick 1]
         quietLater = Some afterOtherExpiry
  ∧ Get "j" (base afterOtherExpiry)
    = Ok (VInt 1, true) (base afterOtherExpiry).
Proof.
  assert (wf (base quietLater)) as Hw.
  { apply (wf_run [Api (CSet "j" (VInt 1)); Tick 5] timedWorld).
    - vm_compute. reflexivity.
    - apply wf_timedWorld. }
  assert (timers (ssm (base quietLater)) !! "j"%string = None) as H1
    by (vm_compute; reflexivity).
  assert (stateMap (ssm (base quietLater)) !! "j"%string = Some (VInt 1))
    as H2 by (vm_compute; reflexivity).
  assert (Forall (λ e, rmodifies "j" e = false)
            [RExpire 0; RApi (CSubscribe "j" 2 true); RCallback 0; RTick 1])
    as H3 by (repeat constructor).
  assert (rrun [RExpire 0; RApi (CSubscribe "j" 2 true); RCallback 0; RTick 1]
               quietLater = Some afterOtherExpiry) as H4
    by (vm_compute; reflexivity).
  split_and!; [done|apply quiet_empty|done..|].
  exact (untimed_value_persists "j" (VInt 1) _ quietLater afterOtherExpiry
           Hw (quiet_empty "j" laterWorld) H1 H2 H3 H4).
Defined.

Lemma timer_map_invariant_witness :
  rrun [RApi (CSubscribe "k" 0 true); RApi (CSetWithTimeout "k" (VInt 7) 5);
        RTick 5; RExpire 0] rboot = Some expiredWaiting
  ∧ timers (ssm (base expiredWaiting)) !! "k"%string = Some 0%nat
  ∧ ∃ t, heap (base expiredWaiting) !! 0%nat = Some t
         ∧ t_key t = "k"%string
         ∧ (t_status t = Armed
            ∨ (t_status t = Fired ∧ 0%nat ∈ queue expiredWaiting)).
Proof.
  assert (rrun [RApi (CSubscribe "k" 0 true);
                RApi (CSetWithTimeout "k" (VInt 7) 5); RTick 5; RExpire 0]
               rboot = Some expiredWaiting) as Hr
    by (vm_compute; reflexivity).
  assert (timers (ssm (base expiredWaiting)) !! "k"%string = Some 0%nat)
    as Hreg by (vm_compute; reflexivity).
  split_and!; [done..|].
  destruct (timer_map_invariant _ _ Hr) as (Htr & _).
  destruct (Htr _ _ Hreg) as (_ & Ht). exact Ht.
Defined.

(** ** Why a call may be taken as one step

    Time passes and timers go off while a call waits in its sends.  The
    sends read neither the clock nor the timers, so a tick or an expiry
    during the sends of [SetWithTimeout] leaves the same world as one just
    before the call: what matters is where [timer.Stop()] falls. *)

Lemma SetWithTimeout_store_eq key value w :
  SetWithTimeout_store key value w
  = Ok () {| ssm := {| stateMap := <[key := value]> (stateMap (ssm w));
                       timers := timers (ssm w);
                       subscribers := subscribers (ssm w) |};
             heap := heap w; now := now w;
             sent := sent w ++ deliveries value (subscribersOf (ssm w) key) |}.
Proof.
  unfold SetWithTimeout_store. unfold_m. simpl.
  by rewrite notifySubscribers_fresh.
Qed.

Lemma store_then_expire key value timer rw :
  (rw1 ← locked (SetWithTimeout_store key value) rw; expire timer rw1)
  = (rw1 ← expire timer rw; locked (SetWithTimeout_store key value) rw1).
Proof.
  unfold locked, expire. rewrite SetWithTimeout_store_eq. simpl.
  destruct (heap (base rw) !! timer) as [t|]; simpl; [|done].
  unfold due. simpl.
  destruct (bool_decide (t_status t = Armed)
            && bool_decide (t_deadline t ≤ now (base rw))); simpl; [|done].
  by rewrite SetWithTimeout_store_eq.
Qed.

Lemma store_then_tick key value d rw :
  (rw1 ← locked (SetWithTimeout_store key value) rw; rexec (RTick d) rw1)
  = (rw1 ← rexec (RTick d) rw; locked (SetWithTimeout_store key value) rw1).
Proof.
  unfold locked. simpl. unfold tick. rewrite SetWithTimeout_store_eq. simpl.
  case_bool_decide; simpl; [|done].
  by rewrite SetWithTimeout_store_eq.
Qed.

(** The race, with the second call taken as one step at the time it reaches
    [timer.Stop()]. *)
Lemma race_as_steps :
  raceEnd
  = rrun [RApi (CSetWithTimeout "k" (VInt 7) 5); RTick 4; RTick 2; RExpire 0;
          RApi (CSetWithTimeout "k" (VInt 8) 10); RCallback 0] raceStart.
Proof. vm_compute. reflexivity. Qed.
